(** * bslc: rate limiter, request gate and price calculator

    A shallow embedding of [src/lib/rateLimiter.ts], the Next.js
    [middleware], [src/lib/priceCalculator.ts] and [src/config/stations.ts],
    together with the properties the specification states about them.

    Conventions.
    - Timestamps and counters are JavaScript numbers holding integers; they
      are modelled as [Z].  Prices are JavaScript numbers that need not be
      integers; they are modelled as IEEE binary64 values ([float]).
    - [Date.now()] is an input of the program.  Every function that reads
      the clock takes one argument per reading, in the order in which the
      source performs the readings.
    - The limiter object is mutable; its methods are modelled in
      state-passing style and return the limiter after the call.  An entry
      fetched from the store is the object held by the store, so assigning
      to its [requests] field is modelled by writing the entry back. *)

From Stdlib Require Import ZArith Lia Ascii String.
From Stdlib Require Import Floats.
From stdpp Require Import gmap strings list fin_maps pretty sorting.

Local Open Scope Z_scope.

(** ** [src/lib/rateLimiter.ts] *)

Record RateLimitEntry := mkEntry {
  requests : list Z;
  lastCleanup : Z
}.

Record RateLimitResult := mkResult {
  allowed : bool;
  limit : Z;
  remaining : Z;
  resetTime : Z
}.

(** The fields of [class RateLimiter]. *)
Record RateLimiter := mkLimiter {
  store : gmap string RateLimitEntry;
  windowMs : Z;
  maxRequests : Z;
  cleanupInterval : Z;
  lastGlobalCleanup : Z
}.

Definition set_store (m : gmap string RateLimitEntry) (rl : RateLimiter) : RateLimiter :=
  mkLimiter m (windowMs rl) (maxRequests rl) (cleanupInterval rl) (lastGlobalCleanup rl).

(** [entry.requests.length > 0 ? entry.requests[0]! : now] *)
Definition oldestRequest (reqs : list Z) (now : Z) : Z :=
  match reqs with
  | t :: _ => t
  | [] => now
  end.

Module RateLimiter.

(** [constructor(windowMs = 60000, maxRequests = 10)]; the field
    initialiser of [lastGlobalCleanup] reads the clock ([now]). *)
Definition new (windowMs maxRequests now : Z) : RateLimiter :=
  mkLimiter ∅ windowMs maxRequests 60000 now.

(** What the loop body of [cleanup] does to one entry: [None] stands for
    [this.store.delete(key)]. *)
Definition cleanup_entry (w now : Z) (entry : RateLimitEntry) : option RateLimitEntry :=
  let validRequests := filter (λ timestamp, now - timestamp < w) (requests entry) in
  if decide (length validRequests = 0%nat) then None
  else Some (mkEntry validRequests now).

Definition cleanup (now : Z) (rl : RateLimiter) : RateLimiter :=
  if decide (now - lastGlobalCleanup rl < cleanupInterval rl) then rl
  else
    mkLimiter (omap (cleanup_entry (windowMs rl) now) (store rl))
              (windowMs rl) (maxRequests rl) (cleanupInterval rl) now.

(** [checkRateLimit(identifier)].  [t_cleanup] is the clock reading taken
    inside [this.cleanup()], [now] the one taken by the method itself. *)
Definition checkRateLimit (t_cleanup now : Z) (identifier : string)
    (rl : RateLimiter) : RateLimitResult * RateLimiter :=
  let rl := cleanup t_cleanup rl in
  let windowStart := now - windowMs rl in
  let entry :=
    match store rl !! identifier with
    | Some entry => entry
    | None => mkEntry [] now
    end in
  let filtered := filter (λ timestamp, timestamp > windowStart) (requests entry) in
  let remaining := Z.max 0 (maxRequests rl - Z.of_nat (length filtered)) in
  let allowed := bool_decide (Z.of_nat (length filtered) < maxRequests rl) in
  let pushed := if allowed then filtered ++ [now] else filtered in
  let resetTime := oldestRequest pushed now + windowMs rl in
  (mkResult allowed (maxRequests rl)
            (if allowed then remaining - 1 else remaining) resetTime,
   set_store (<[identifier := mkEntry pushed (lastCleanup entry)]> (store rl)) rl).

Definition reset (identifier : string) (rl : RateLimiter) : RateLimiter :=
  set_store (delete identifier (store rl)) rl.

Record Stats := mkStats { totalKeys : Z; totalRequests : Z }.

Definition getStats (rl : RateLimiter) : Stats :=
  mkStats (Z.of_nat (size (store rl)))
          (map_fold (λ _ entry total, total + Z.of_nat (length (requests entry))) 0 (store rl)).

End RateLimiter.

(** [const rateLimiter = new RateLimiter(60000, 10)], created when the
    module is loaded, at clock reading [t0]. *)
Definition rateLimiter (t0 : Z) : RateLimiter := RateLimiter.new 60000 10 t0.

(** The part of [process.env] the program reads; an unset variable is
    [None]. *)
Record ProcessEnv := mkEnv {
  NO_RATE_LIMIT_IPS : option string;
  ALLOWED_ORIGINS : option string
}.

(** [String.prototype.split] with a one-character separator: the result
    always has at least one element, and an empty string gives one empty
    element. *)
Fixpoint split (sep : Ascii.ascii) (s : string) : list string :=
  match s with
  | EmptyString => [EmptyString]
  | String c s' =>
      if Ascii.eqb c sep then EmptyString :: split sep s'
      else
        match split sep s' with
        | tok :: rest => String c tok :: rest
        | [] => [String c EmptyString]
        end
  end.

(** [String.prototype.trim], on the white space of the ASCII range (tab,
    line feed, vertical tab, form feed, carriage return, space). *)
Definition is_white_space (c : Ascii.ascii) : bool :=
  let n := Ascii.nat_of_ascii c in
  ((9 <=? n)%nat && (n <=? 13)%nat) || (n =? 32)%nat.

Fixpoint trimStart (s : string) : string :=
  match s with
  | String c s' => if is_white_space c then trimStart s' else s
  | EmptyString => EmptyString
  end.

Definition trim (s : string) : string :=
  String.rev (trimStart (String.rev (trimStart s))).

(** A string is truthy when it is not empty. *)
Definition truthy (s : string) : bool :=
  match s with
  | EmptyString => false
  | String _ _ => true
  end.

(** [process.env.NO_RATE_LIMIT_IPS?.split(',').map(ip => ip.trim()) || []] *)
Definition noRateLimitIps (env : ProcessEnv) : list string :=
  match NO_RATE_LIMIT_IPS env with
  | Some s => trim <$> split "," s
  | None => []
  end.

(** The exported [checkRateLimit(ip)], acting on the module-level limiter
    [rl].  On the bypass path the only clock reading is the one of the
    synthetic result, [t1]; otherwise [t1] and [t2] are the two readings of
    the method. *)
Definition checkRateLimit (env : ProcessEnv) (t1 t2 : Z) (ip : string)
    (rl : RateLimiter) : RateLimitResult * RateLimiter :=
  if bool_decide (ip ∈ noRateLimitIps env) then
    (mkResult true 10 9 (t1 + 60000), rl)
  else RateLimiter.checkRateLimit t1 t2 ip rl.

(** A request as the middleware sees it.  [headers] maps a lower-case
    header name to its value, so [headers.get(name)] is a lookup. *)
Record NextRequest := mkRequest {
  pathname : string;
  headers : gmap string string;
  body : string
}.

(** [if (h)] for the result [h] of [headers.get]: the branch is taken when
    the header is present and its value is not empty. *)
Definition present (h : option string) : option string :=
  match h with
  | Some v => if truthy v then Some v else None
  | None => None
  end.

Definition getClientIP (request : NextRequest) : string :=
  match present (headers request !! "x-forwarded-for") with
  | Some forwarded => trim (hd EmptyString (split "," forwarded))
  | None =>
      match present (headers request !! "x-real-ip") with
      | Some realIp => trim realIp
      | None =>
          match present (headers request !! "cf-connecting-ip") with
          | Some cfConnectingIp => trim cfConnectingIp
          | None => "127.0.0.1"
          end
      end
  end.

(** ** The request gate ([middleware]) *)

Record ApiError := mkApiError {
  error : string;
  message : string;
  statusCode : Z
}.

(** The three kinds of response the middleware builds, with the headers it
    sets on them in source order. *)
Inductive NextResponse :=
  | NextResponse_next (response_headers : list (string * string))
  | NextResponse_json (payload : ApiError) (status : Z)
                      (response_headers : list (string * string))
  | NextResponse_text (text : string) (status : Z).

Definition response_status (r : NextResponse) : option Z :=
  match r with
  | NextResponse_next _ => None
  | NextResponse_json _ status _ => Some status
  | NextResponse_text _ status => Some status
  end.

Definition response_header (name : string) (r : NextResponse) : option string :=
  match r with
  | NextResponse_next hs | NextResponse_json _ _ hs =>
      snd <$> List.find (λ h, String.eqb (fst h) name) hs
  | NextResponse_text _ _ => None
  end.

(** [Math.ceil(x / d)] for an integer [x] and a positive integer [d]. *)
Definition ceil_div (x d : Z) : Z := - ((- x) / d).

(** [process.env.ALLOWED_ORIGINS?.split(',') || []] *)
Definition allowedOrigins (env : ProcessEnv) : list string :=
  match ALLOWED_ORIGINS env with
  | Some s => split "," s
  | None => []
  end.

(** [origin && allowedOrigins.includes(origin)], as a condition. *)
Definition isAllowedOrigin (origin : option string) (allowed : list string) : bool :=
  match origin with
  | Some o => truthy o && bool_decide (o ∈ allowed)
  | None => false
  end.

(** [referer && allowedOrigins.some(allowed => referer.startsWith(allowed))],
    as a condition. *)
Definition isAllowedReferer (referer : option string) (allowed : list string) : bool :=
  match referer with
  | Some r => truthy r && existsb (λ a, String.prefix a r) allowed
  | None => false
  end.

Definition rateLimitHeaders (r : RateLimitResult) : list (string * string) :=
  [ ("X-RateLimit-Limit", pretty (limit r));
    ("X-RateLimit-Remaining", pretty (remaining r));
    ("X-RateLimit-Reset", pretty (resetTime r)) ].

(** [middleware(request)].  [t1] and [t2] are the clock readings of
    [checkRateLimit]; [t3] is the reading taken when the [Retry-After]
    header of a 429 response is computed. *)
Definition middleware (env : ProcessEnv) (t1 t2 t3 : Z) (request : NextRequest)
    (rl : RateLimiter) : NextResponse * RateLimiter :=
  if String.prefix "/api/public" (pathname request) then
    let clientIP := getClientIP request in
    let '(rateLimitResult, rl') := checkRateLimit env t1 t2 clientIP rl in
    if negb (allowed rateLimitResult) then
      (NextResponse_json
         (mkApiError "Too Many Requests"
                     "Rate limit exceeded. Please try again later." 429)
         429
         (rateLimitHeaders rateLimitResult ++
          [("Retry-After", pretty (ceil_div (resetTime rateLimitResult - t3) 1000))]),
       rl')
    else (NextResponse_next (rateLimitHeaders rateLimitResult), rl')
  else if String.prefix "/api" (pathname request)
          && negb (String.prefix "/api/public" (pathname request)) then
    let origin := headers request !! "origin" in
    let referer := headers request !! "referer" in
    if negb (isAllowedOrigin origin (allowedOrigins env))
       && negb (isAllowedReferer referer (allowedOrigins env))
    then (NextResponse_text "Forbidden" 403, rl)
    else (NextResponse_next [], rl)
  else (NextResponse_next [], rl).

(** ** [src/types] and [src/config/stations.ts] *)

Record Station := mkStation {
  id : string;
  name : string;
  system : string;
  systemId : Z
}.

Record Config := mkConfig {
  stations : list Station;
  priceMatrix : gmap string (gmap string float);
  maxVolume : float;
  maxCollateral : float;
  collateralPercentage : float;
  defaultPickupStation : string;
  defaultDestinationStation : string
}.

Record CalculatePriceRequest := mkCalculatePriceRequest {
  pickupStationId : string;
  destinationStationId : string;
  volume : float;
  collateral : float
}.

Record CalculatePriceResponse := mkCalculatePriceResponse {
  basePrice : float;
  collateralFee : float;
  totalPrice : float;
  pickupStation : string;
  destinationStation : string;
  response_volume : float;
  response_collateral : float
}.

#[local] Set Warnings "-inexact-float".

Definition row (l : list (string * float)) : gmap string float := list_to_map l.

Definition stationsConfig : Config := {|
  stations := [
    mkStation "jita-iv-moon-4" "Jita IV - Moon 4 - Caldari Navy Assembly Plant" "Jita" 30000142;
    mkStation "saminer" "Saminer - Stain is for Stain People" "Saminer" 30001721;
    mkStation "t-nnjz" "T-NNJZ - meow meow" "T-NNJZ" 30001959;
    mkStation "z-xmuc" "Z-XMUC - Ends of Invention" "Z-XMUC" 30001929;
    mkStation "o-fthe" "O-FTHE - Good Sax Nightmare Dealership" "O-FTHE" 30001938;
    mkStation "y-4u62" "Y-4U62 - Neural-Link Giga Factory" "Y-4U62" 30001932;
    mkStation "37s-ko-vi-moon-14" "37S-KO VI - Moon 14 - True Creations Assembly Plant" "37S-KO" 30001868
  ];
  priceMatrix := list_to_map [
    ("jita-iv-moon-4", row [
      ("jita-iv-moon-4", 0); ("saminer", 300); ("t-nnjz", 650); ("z-xmuc", 650);
      ("o-fthe", 650); ("y-4u62", 650); ("37s-ko-vi", 650) ]%float);
    ("saminer", row [
      ("jita-iv-moon-4", 300); ("saminer", 0); ("t-nnjz", 650); ("z-xmuc", 650);
      ("o-fthe", 650); ("y-4u62", 650); ("37s-ko-vi", 650) ]%float);
    ("t-nnjz", row [
      ("jita-iv-moon-4", 650); ("saminer", 650); ("t-nnjz", 650); ("z-xmuc", 650);
      ("o-fthe", 650); ("y-4u62", 650); ("37s-ko-vi", 650) ]%float);
    ("z-xmuc", row [
      ("jita-iv-moon-4", 650); ("saminer", 650); ("t-nnjz", 650); ("z-xmuc", 650);
      ("o-fthe", 650); ("y-4u62", 650); ("37s-ko-vi", 650) ]%float);
    ("o-fthe", row [
      ("jita-iv-moon-4", 650); ("saminer", 650); ("t-nnjz", 650); ("z-xmuc", 650);
      ("o-fthe", 650); ("y-4u62", 650); ("37s-ko-vi", 0) ]%float);
    ("y-4u62", row [
      ("jita-iv-moon-4", 650); ("saminer", 650); ("t-nnjz", 650); ("z-xmuc", 650);
      ("o-fthe", 650); ("y-4u62", 650); ("37s-ko-vi", 650) ]%float);
    ("37s-ko-vi", row [
      ("jita-iv-moon-4", 650); ("saminer", 650); ("t-nnjz", 650); ("z-xmuc", 650);
      ("o-fthe", 650); ("y-4u62", 650); ("37s-ko-vi", 650) ]%float)
  ];
  maxVolume := 345000;
  maxCollateral := 3000000000;
  collateralPercentage := 0.01;
  defaultPickupStation := "jita-iv-moon-4";
  defaultDestinationStation := "y-4u62"
|}.

(** ** [src/lib/priceCalculator.ts] *)

(** [class PriceCalculationError extends Error].  The functions below
    construct it at six places, each with its own message; an error is
    represented by the place that threw it. *)
Inductive PriceCalculationError :=
  | StationsRequired
  | VolumeOutOfRange
  | CollateralOutOfRange
  | InvalidPickupStation
  | InvalidDestinationStation
  | RouteNotAvailable.

(** The message of an error.  Two messages embed the result of
    [Number.prototype.toLocaleString], which depends on the locale of the
    host and is left as a parameter. *)
Definition error_message (toLocaleString : float → string)
    (e : PriceCalculationError) : string :=
  match e with
  | StationsRequired => "Pickup and destination stations are required"
  | VolumeOutOfRange =>
      "Volume must be between 0 and "
      +:+ toLocaleString (maxVolume stationsConfig) +:+ " m³"
  | CollateralOutOfRange =>
      "Collateral must be between 0 and "
      +:+ toLocaleString (maxCollateral stationsConfig) +:+ " ISK"
  | InvalidPickupStation => "Invalid pickup station"
  | InvalidDestinationStation => "Invalid destination station"
  | RouteNotAvailable => "Price route not available"
  end.

(** A call returns, throws a [PriceCalculationError], or fails with the
    [TypeError] JavaScript raises on reading a property of [undefined]. *)
Inductive outcome (A : Type) :=
  | Return (a : A)
  | Throw (e : PriceCalculationError)
  | TypeError.
Arguments Return {A} a.
Arguments Throw {A} e.
Arguments TypeError {A}.

Definition bind {A B : Type} (o : outcome A) (k : A → outcome B) : outcome B :=
  match o with
  | Return a => k a
  | Throw e => Throw e
  | TypeError => TypeError
  end.

(** [stationsConfig.stations.find(s => s.id === stationId)] *)
Definition getStationById (stationId : string) : option Station :=
  List.find (λ s, String.eqb (id s) stationId) (stations stationsConfig).

(** [stationsConfig.priceMatrix[from]?.[to]]; both keys are station
    identifiers checked beforehand, so only own properties are looked up. *)
Definition routeRate (from to : string) : option float :=
  priceMatrix stationsConfig !! from ≫= λ r, r !! to.

Definition validateCalculationRequest (request : CalculatePriceRequest) : outcome unit :=
  if negb (truthy (pickupStationId request)) || negb (truthy (destinationStationId request))
  then Throw StationsRequired
  else if ((volume request <=? 0) || (maxVolume stationsConfig <? volume request))%float
  then Throw VolumeOutOfRange
  else if ((collateral request <? 0) || (maxCollateral stationsConfig <? collateral request))%float
  then Throw CollateralOutOfRange
  else
    match getStationById (pickupStationId request) with
    | None => Throw InvalidPickupStation
    | Some _ =>
        match getStationById (destinationStationId request) with
        | None => Throw InvalidDestinationStation
        | Some _ =>
            match routeRate (pickupStationId request) (destinationStationId request) with
            | None => Throw RouteNotAvailable
            | Some _ => Return tt
            end
        end
    end.

(** [calculatePrice(request)].  After a successful validation the two
    [find] calls and the matrix lookup are defined, so the last branch is
    never taken ([calculatePrice_no_TypeError]). *)
Definition calculatePrice (request : CalculatePriceRequest) : outcome CalculatePriceResponse :=
  bind (validateCalculationRequest request) (λ _,
    match getStationById (pickupStationId request),
          getStationById (destinationStationId request),
          routeRate (pickupStationId request) (destinationStationId request) with
    | Some pickup, Some destination, Some pricePerM3 =>
        let basePrice := (pricePerM3 * volume request)%float in
        let collateralFee :=
          (collateral request * collateralPercentage stationsConfig)%float in
        let totalPrice := (basePrice + collateralFee)%float in
        Return (mkCalculatePriceResponse basePrice collateralFee totalPrice
                  (name pickup) (name destination)
                  (volume request) (collateral request))
    | _, _, _ => TypeError
    end).

(** ** Auxiliary notions used to state the properties *)

(** The timestamp sequence the limiter holds for an identifier; an
    identifier without an entry has none. *)
Definition requests_of (identifier : string) (rl : RateLimiter) : list Z :=
  match store rl !! identifier with
  | Some entry => requests entry
  | None => []
  end.

(** A sequence of [checkRateLimit] calls for one identifier, each with its
    two clock readings; the results are returned in call order. *)
Fixpoint run (identifier : string) (calls : list (Z * Z)) (rl : RateLimiter)
    : list RateLimitResult * RateLimiter :=
  match calls with
  | [] => ([], rl)
  | (t1, t2) :: calls' =>
      let '(r, rl1) := RateLimiter.checkRateLimit t1 t2 identifier rl in
      let '(rs, rl2) := run identifier calls' rl1 in
      (r :: rs, rl2)
  end.

(** All clock readings taken during a sequence of calls. *)
Definition readings (calls : list (Z * Z)) : list Z :=
  calls ≫= λ c, [c.1; c.2].

(** The readings lie within one window: any two of them are less than [w]
    apart. *)
Definition one_window (w : Z) (ts : list Z) : Prop :=
  Forall (λ t, Forall (λ t', t' - t < w) ts) ts.

(** The states a limiter constructed with [new RateLimiter(w, m)] can be in:
    its store is private, so it only changes through the methods. *)
Inductive reachable (w m : Z) : RateLimiter → Prop :=
  | reachable_new t0 :
      reachable w m (RateLimiter.new w m t0)
  | reachable_check rl t1 t2 identifier :
      reachable w m rl →
      reachable w m (RateLimiter.checkRateLimit t1 t2 identifier rl).2
  | reachable_reset rl identifier :
      reachable w m rl →
      reachable w m (RateLimiter.reset identifier rl).

(** [undisturbed identifier rl rl']: the limiter went from [rl] to [rl']
    through calls that concern other identifiers only. *)
Inductive undisturbed (identifier : string) (rl : RateLimiter) : RateLimiter → Prop :=
  | undisturbed_refl :
      undisturbed identifier rl rl
  | undisturbed_check rl' t1 t2 other :
      undisturbed identifier rl rl' →
      other ≠ identifier →
      undisturbed identifier rl (RateLimiter.checkRateLimit t1 t2 other rl').2
  | undisturbed_reset rl' other :
      undisturbed identifier rl rl' →
      other ≠ identifier →
      undisturbed identifier rl (RateLimiter.reset other rl').

(** The timestamps of an identifier that survive the window filter of a
    call with readings [t1] and [t2]. *)
Definition surviving (t1 t2 : Z) (identifier : string) (rl : RateLimiter) : list Z :=
  filter (λ timestamp, timestamp > t2 - windowMs rl)
         (requests_of identifier (RateLimiter.cleanup t1 rl)).

(** All timestamps of the limiter are in non-decreasing order and none is
    later than [bound]. *)
Definition chronological (bound : Z) (rl : RateLimiter) : Prop :=
  ∀ identifier,
    StronglySorted Z.le (requests_of identifier rl) ∧
    Forall (λ t, t ≤ bound) (requests_of identifier rl).

(** The 403 response of the gate: a bare body, no header, no detail. *)
Definition forbidden : NextResponse := NextResponse_text "Forbidden" 403.

(** The paths the origin check applies to. *)
Definition non_public_api (path : string) : Prop :=
  String.prefix "/api" path = true ∧ String.prefix "/api/public" path = false.

(** The request carries an [Origin] header whose value is an entry of the
    allow-list. *)
Definition origin_listed (request : NextRequest) (allowed : list string) : Prop :=
  ∃ o, headers request !! "origin" = Some o ∧ o ∈ allowed.

(** The request carries a [Referer] header whose value starts with an entry
    of the allow-list. *)
Definition referer_listed (request : NextRequest) (allowed : list string) : Prop :=
  ∃ r a, headers request !! "referer" = Some r ∧ a ∈ allowed ∧ String.prefix a r = true.

(** The same two conditions for headers with a non-empty value. *)
Definition origin_matches (request : NextRequest) (allowed : list string) : Prop :=
  ∃ o, headers request !! "origin" = Some o ∧ o ≠ EmptyString ∧ o ∈ allowed.

Definition referer_matches (request : NextRequest) (allowed : list string) : Prop :=
  ∃ r a, headers request !! "referer" = Some r ∧ r ≠ EmptyString ∧
         a ∈ allowed ∧ String.prefix a r = true.

(** The bounds [0 < volume ≤ maxVolume] and [0 ≤ collateral ≤ maxCollateral],
    with the comparisons of binary64 numbers. *)
Definition in_bounds (request : CalculatePriceRequest) : Prop :=
  (0 <? volume request)%float = true ∧
  (volume request <=? maxVolume stationsConfig)%float = true ∧
  (0 <=? collateral request)%float = true ∧
  (collateral request <=? maxCollateral stationsConfig)%float = true.

(** ** Concrete scenarios *)

Definition example_ip : string := "203.0.113.7".

(** Ten calls, one per second, each taking its two readings a millisecond
    apart. *)
Definition ten_calls : list (Z * Z) :=
  (λ i : nat, (1000 * Z.of_nat i, 1000 * Z.of_nat i + 1)) <$> seq 0 10.

(** The exported limiter, created at time [0], after these ten calls. *)
Definition exhausted : RateLimiter := (run example_ip ten_calls (rateLimiter 0)).2.

(** Three calls of one client, spread over fifty seconds. *)
Definition spread : RateLimiter :=
  (RateLimiter.checkRateLimit 50000 50000 example_ip
     (RateLimiter.checkRateLimit 30000 30000 example_ip
        (RateLimiter.checkRateLimit 1000 1000 example_ip (rateLimiter 0)).2).2).2.

(** One call at a reading of [100]; the clock of the host is set back
    before the next call. *)
Definition before_set_back : RateLimiter :=
  (RateLimiter.checkRateLimit 100 100 example_ip (rateLimiter 0)).2.

Definition public_request : NextRequest :=
  mkRequest "/api/public/calculate" {[ "x-forwarded-for" := "203.0.113.7, 10.0.0.1" ]} "{}".

Definition internal_request (hs : gmap string string) : NextRequest :=
  mkRequest "/api/calculate-price" hs "{}".

Definition no_env : ProcessEnv := mkEnv None None.

(** ** Traces of calls *)

(** One served call: who asked, the reading [now] of the call, and the
    result it got. *)
Record Served := mkServed {
  served_identifier : string;
  served_at : Z;
  served_result : RateLimitResult
}.

(** A sequence of [checkRateLimit] calls by arbitrary identifiers, each
    with its two clock readings, and the log of what was served. *)
Fixpoint serve (calls : list (string * (Z * Z))) (rl : RateLimiter)
    : list Served * RateLimiter :=
  match calls with
  | [] => ([], rl)
  | (identifier, (t1, t2)) :: calls' =>
      let '(r, rl1) := RateLimiter.checkRateLimit t1 t2 identifier rl in
      let '(log, rl2) := serve calls' rl1 in
      (mkServed identifier t2 r :: log, rl2)
  end.

(** The clock readings of a sequence of calls, in the order they are
    taken. *)
Definition clock (calls : list (string * (Z * Z))) : list Z :=
  calls ≫= λ c, [c.2.1; c.2.2].

(** The times at which requests of an identifier were admitted. *)
Definition admitted (identifier : string) (log : list Served) : list Z :=
  served_at <$>
    filter (λ e, served_identifier e = identifier ∧ allowed (served_result e) = true) log.

(** [fresh_agree w rl bound adm]: seen from any time [t] not before [bound],
    the timestamps the limiter still holds for an identifier and the times
    [adm] at which its requests were admitted agree on the window that ends
    at [t].  Timestamps are only ever dropped when they have left it. *)
Definition fresh_agree (w : Z) (rl : RateLimiter) (bound : Z)
    (adm : string → list Z) : Prop :=
  ∀ identifier t, bound ≤ t →
    filter (λ a, a > t - w) (adm identifier) =
    filter (λ a, a > t - w) (requests_of identifier rl).

(** ** [src/lib/priceCalculator.ts], continued *)

Module Public.

(** [interface PublicCalculatePriceRequest]; an absent optional field is
    [None]. *)
Record PublicCalculatePriceRequest := mkPublicCalculatePriceRequest {
  pickupStationId : option string;
  pickupSystemId : option Z;
  destinationStationId : option string;
  destinationSystemId : option Z;
  volume : float;
  collateral : float
}.

End Public.

(** The [PriceCalculationError]s thrown while a public request is resolved,
    again by the place that threw them. *)
Inductive ResolutionError :=
  | NoStationsInSystem (systemId : Z)
  | MultipleStationsInSystem (systemName : string)
  | PickupRequired
  | DestinationRequired.

(** The messages of these errors.  The first one interpolates the system
    identifier, a number: [pretty] writes its decimal digits, which is the
    text of the template literal for an integer that a binary64 number
    holds exactly and that is below [10^21]; beyond that the text differs,
    and no property below depends on it. *)
Definition resolution_message (e : ResolutionError) : string :=
  match e with
  | NoStationsInSystem systemId =>
      "No stations found in system with ID " +:+ pretty systemId
  | MultipleStationsInSystem systemName =>
      "Multiple stations found in system " +:+ systemName
      +:+ ". Please specify station ID."
  | PickupRequired => "Either pickupStationId or pickupSystemId is required"
  | DestinationRequired => "Either destinationStationId or destinationSystemId is required"
  end.

(** [getAllStations()] *)
Definition getAllStations : list Station := stations stationsConfig.

(** [getMaxValues()] *)
Definition getMaxValues : float * float :=
  (maxVolume stationsConfig, maxCollateral stationsConfig).

(** [resolveStationFromSystemId(systemId)] *)
Definition resolveStationFromSystemId (n : Z) : ResolutionError + string :=
  let stationsInSystem :=
    List.filter (λ s, Z.eqb (systemId s) n) (stations stationsConfig) in
  match stationsInSystem with
  | [] => inl (NoStationsInSystem n)
  | s :: _ :: _ => inl (MultipleStationsInSystem (system s))
  | [s] => inr (id s)
  end.

(** One side of [resolvePublicCalculateRequest]: a non-empty station
    identifier wins, then a non-zero system identifier is resolved. *)
Definition resolveSide (stationId : option string) (system : option Z)
    (missing : ResolutionError) : ResolutionError + string :=
  match present stationId with
  | Some s => inr s
  | None =>
      match system with
      | Some n => if Z.eqb n 0 then inl missing else resolveStationFromSystemId n
      | None => inl missing
      end
  end.

(** [resolvePublicCalculateRequest(request)]: the pickup side is resolved
    first, so its error is the one thrown when both sides fail. *)
Definition resolvePublicCalculateRequest
    (request : Public.PublicCalculatePriceRequest) : ResolutionError + CalculatePriceRequest :=
  match resolveSide (Public.pickupStationId request) (Public.pickupSystemId request)
                    PickupRequired with
  | inl e => inl e
  | inr pickup =>
      match resolveSide (Public.destinationStationId request)
                        (Public.destinationSystemId request) DestinationRequired with
      | inl e => inl e
      | inr destination =>
          inr (mkCalculatePriceRequest pickup destination
                 (Public.volume request) (Public.collateral request))
      end
  end.

(** ** The route handlers *)

(** What a [POST] handler answers: the JSON payload, the status and the
    headers. *)
Inductive RouteResponse :=
  | RouteResult (result : CalculatePriceResponse) (status : Z)
                (response_headers : list (string * string))
  | RouteError (payload : ApiError) (status : Z)
               (response_headers : list (string * string)).

Definition route_status (r : RouteResponse) : Z :=
  match r with
  | RouteResult _ status _ => status
  | RouteError _ status _ => status
  end.

Definition validationError (msg : string) (hs : list (string * string)) : RouteResponse :=
  RouteError (mkApiError "Validation Error" msg 400) 400 hs.

Definition internalError (hs : list (string * string)) : RouteResponse :=
  RouteError (mkApiError "Internal Server Error"
                "An unexpected error occurred while calculating the price" 500) 500 hs.

(** What both handlers do with the outcome of [calculatePrice]. *)
Definition respond (toLocaleString : float → string) (hs : list (string * string))
    (o : outcome CalculatePriceResponse) : RouteResponse :=
  match o with
  | Return result => RouteResult result 200 hs
  | Throw e => validationError (error_message toLocaleString e) hs
  | TypeError => internalError hs
  end.

(** What [await request.json()] leaves a handler with: a [SyntaxError] for
    a body that is not JSON, the value [null], or a request object. *)
Inductive Posted (A : Type) :=
  | NotJSON
  | JSONNull
  | JSONValue (request : A).
Arguments NotJSON {A}.
Arguments JSONNull {A}.
Arguments JSONValue {A} request.

(** The request object the handler goes on with, if it gets that far.  The
    [SyntaxError] leaves the [try] block at once; [null] leaves it at the
    first property read of it ([request.pickupStationId], a [TypeError]).
    Both are caught as unexpected errors. *)
Definition posted_body {A} (posted : Posted A) : option A :=
  match posted with
  | JSONValue request => Some request
  | NotJSON | JSONNull => None
  end.

(** [POST] of [/api/calculate-price].  [body] is the request object the
    handler works on, [None] when [request.json()] throws or yields [null]:
    either error ends in the [catch] block as an unexpected one. *)
Definition calculate_price_POST (toLocaleString : float → string)
    (body : option CalculatePriceRequest) : RouteResponse :=
  match body with
  | Some request => respond toLocaleString [] (calculatePrice request)
  | None => internalError []
  end.

Definition corsHeaders : list (string * string) :=
  [ ("Access-Control-Allow-Origin", "*");
    ("Access-Control-Allow-Methods", "POST, OPTIONS");
    ("Access-Control-Allow-Headers", "Content-Type") ].

(** [POST] of [/api/public/calculate]. *)
Definition public_calculate_POST (toLocaleString : float → string)
    (body : option Public.PublicCalculatePriceRequest) : RouteResponse :=
  match body with
  | Some request =>
      match resolvePublicCalculateRequest request with
      | inl e => validationError (resolution_message e) corsHeaders
      | inr resolvedRequest =>
          respond toLocaleString corsHeaders (calculatePrice resolvedRequest)
      end
  | None => internalError corsHeaders
  end.

Definition route_headers (r : RouteResponse) : list (string * string) :=
  match r with
  | RouteResult _ _ hs => hs
  | RouteError _ _ hs => hs
  end.

(** A public request that names both sides by system identifier only. *)
Definition by_system (pickup destination : Z) (v c : float)
    : Public.PublicCalculatePriceRequest :=
  Public.mkPublicCalculatePriceRequest None (Some pickup) None (Some destination) v c.

(** ** [src/components/DeliveryCalculator.tsx]: the number inputs *)

(** [\d] and [\w] of a regular expression without the [u] flag. *)
Definition is_digit (c : Ascii.ascii) : bool :=
  let n := Ascii.nat_of_ascii c in (48 <=? n)%nat && (n <=? 57)%nat.

Definition is_word (c : Ascii.ascii) : bool :=
  let n := Ascii.nat_of_ascii c in
  is_digit c || ((65 <=? n)%nat && (n <=? 90)%nat)
  || ((97 <=? n)%nat && (n <=? 122)%nat) || (n =? 95)%nat.

Definition starts_with_digit (s : string) : bool :=
  match s with
  | String c _ => is_digit c
  | EmptyString => false
  end.

(** The look-ahead [(?=(\d{3})+(?!\d))] at the start of [s]: one or more
    groups of three digits, after which no digit follows. *)
Fixpoint groups_of_three (s : string) : bool :=
  match s with
  | String a (String b (String c rest)) =>
      is_digit a && is_digit b && is_digit c
      && (negb (starts_with_digit rest) || groups_of_three rest)
  | _ => false
  end.

(** [\B] between a character [prev] and the string that follows: both sides
    are word characters or neither is; beyond either end of the input there
    is no word character. *)
Definition not_word_boundary (prev : option Ascii.ascii) (s : string) : bool :=
  bool_decide (from_option is_word false prev
               = match s with String c _ => is_word c | EmptyString => false end).

(** [s.replace(/\B(?=(\d{3})+(?!\d))/g, ' ')], scanning [s] with the
    character [prev] before it: the pattern matches the empty string, so
    every position is tried once and a space is inserted where it
    matches. *)
Fixpoint group_after (prev : option Ascii.ascii) (s : string) : string :=
  let sep := if not_word_boundary prev s && groups_of_three s then " " else EmptyString in
  match s with
  | EmptyString => sep
  | String c s' => sep +:+ String c (group_after (Some c) s')
  end.

Definition groupThousands (s : string) : string := group_after None s.

(** [s.replace(/\s/g, '')], on the white space of the ASCII range. *)
Fixpoint removeWhiteSpace (s : string) : string :=
  match s with
  | EmptyString => EmptyString
  | String c s' =>
      if is_white_space c then removeWhiteSpace s' else String c (removeWhiteSpace s')
  end.

(** [/^\d+$/.test(s)] *)
Fixpoint all_digits (s : string) : bool :=
  match s with
  | EmptyString => false
  | String c EmptyString => is_digit c
  | String c s' => is_digit c && all_digits s'
  end.

(** [formatInputNumber(value)].  [numeric s] stands for
    [!isNaN(Number(s))], the test of the host for a string that converts to
    a number. *)
Definition formatInputNumber (numeric : string → bool) (value : string) : string :=
  let cleanNumber := removeWhiteSpace value in
  if negb (truthy cleanNumber) || negb (numeric cleanNumber) then value
  else groupThousands cleanNumber.

(** [handleVolumeChange(e)] and [handleCollateralChange(e)], as functions of
    the text of the input field and the state they may replace. *)
Definition handleVolumeChange (value : string) (volume : string) : string :=
  let rawValue := removeWhiteSpace value in
  if String.eqb rawValue EmptyString || all_digits rawValue then rawValue else volume.

Definition handleCollateralChange (value : string) (collateral : string) : string :=
  let rawValue := removeWhiteSpace value in
  if String.eqb rawValue EmptyString || all_digits rawValue then rawValue else collateral.

(** Every character of [s] is a digit. *)
Fixpoint only_digits (s : string) : bool :=
  match s with
  | EmptyString => true
  | String c s' => is_digit c && only_digits s'
  end.

(** ** Further scenarios *)

(** Twelve calls of one client, one per second, with a call of a second
    client after each of them. *)
Definition busy_trace : list (string * (Z * Z)) :=
  seq 0 12 ≫= λ i : nat,
    [ (example_ip, (1000 * Z.of_nat i, 1000 * Z.of_nat i + 1));
      ("198.51.100.2", (1000 * Z.of_nat i + 2, 1000 * Z.of_nat i + 3)) ].

(** The exported limiter after that trace: both clients have an entry. *)
Definition two_clients : RateLimiter := (serve busy_trace (rateLimiter 0)).2.

Definition bypass_env : ProcessEnv := mkEnv (Some "10.0.0.1, 203.0.113.7") None.

Definition jita_to_saminer : CalculatePriceRequest :=
  mkCalculatePriceRequest "jita-iv-moon-4" "saminer" 1000 1000000.

Definition jita : Station :=
  mkStation "jita-iv-moon-4" "Jita IV - Moon 4 - Caldari Navy Assembly Plant"
            "Jita" 30000142.

Definition saminer : Station :=
  mkStation "saminer" "Saminer - Stain is for Stain People" "Saminer" 30001721.

(** * Properties *)

(** ** The string helpers on sample inputs *)

Example split_sample : split "," "a, b,,c" = ["a"; " b"; EmptyString; "c"].
Proof. reflexivity. Qed.

Example split_empty : split "," EmptyString = [EmptyString].
Proof. reflexivity. Qed.

Example trim_sample : trim "  203.0.113.7 " = "203.0.113.7".
Proof. reflexivity. Qed.

Example noRateLimitIps_sample :
  noRateLimitIps (mkEnv (Some "10.0.0.1, 203.0.113.7") None) = ["10.0.0.1"; "203.0.113.7"].
Proof. reflexivity. Qed.

Example getClientIP_sample : getClientIP public_request = "203.0.113.7".
Proof. reflexivity. Qed.

Example getClientIP_fallback : getClientIP (internal_request ∅) = "127.0.0.1".
Proof. reflexivity. Qed.

(** ** The rate limiter *)

Section RateLimiterFacts.

Implicit Types (rl : RateLimiter) (identifier : string) (t now : Z).

Lemma cleanup_windowMs t rl : windowMs (RateLimiter.cleanup t rl) = windowMs rl.
Proof. unfold RateLimiter.cleanup. by case_decide. Qed.

Lemma cleanup_maxRequests t rl : maxRequests (RateLimiter.cleanup t rl) = maxRequests rl.
Proof. unfold RateLimiter.cleanup. by case_decide. Qed.

(** On one identifier, [cleanup] either does nothing or filters its
    timestamps; deleting an emptied entry leaves no timestamps, too. *)
Lemma cleanup_requests_of t identifier rl :
  requests_of identifier (RateLimiter.cleanup t rl) =
    if decide (t - lastGlobalCleanup rl < cleanupInterval rl)
    then requests_of identifier rl
    else filter (λ timestamp, t - timestamp < windowMs rl) (requests_of identifier rl).
Proof.
  unfold RateLimiter.cleanup, requests_of. case_decide; [done|]. simpl.
  rewrite lookup_omap. destruct (store rl !! identifier) as [e|]; simpl; [|done].
  unfold RateLimiter.cleanup_entry. case_decide as Hlen; simpl; [|done].
  by apply nil_length_inv in Hlen.
Qed.

Lemma cleanup_sublist t identifier rl :
  requests_of identifier (RateLimiter.cleanup t rl) `sublist_of` requests_of identifier rl.
Proof.
  rewrite cleanup_requests_of. case_decide; [done|]. apply sublist_filter.
Qed.

(** The result and the effect of a call, in terms of the timestamps that
    survive its window filter. *)
Lemma checkRateLimit_result t1 t2 identifier rl :
  let filtered := surviving t1 t2 identifier rl in
  let n := Z.of_nat (length filtered) in
  let ok := bool_decide (n < maxRequests rl) in
  (RateLimiter.checkRateLimit t1 t2 identifier rl).1 =
    mkResult ok (maxRequests rl)
             (if ok then Z.max 0 (maxRequests rl - n) - 1 else Z.max 0 (maxRequests rl - n))
             (oldestRequest (if ok then filtered ++ [t2] else filtered) t2 + windowMs rl).
Proof.
  unfold RateLimiter.checkRateLimit, surviving, requests_of. simpl.
  rewrite cleanup_windowMs, cleanup_maxRequests.
  by destruct (store (RateLimiter.cleanup t1 rl) !! identifier).
Qed.

Lemma checkRateLimit_entry t1 t2 identifier rl :
  let filtered := surviving t1 t2 identifier rl in
  let ok := bool_decide (Z.of_nat (length filtered) < maxRequests rl) in
  ∃ entry,
    store (RateLimiter.checkRateLimit t1 t2 identifier rl).2 !! identifier = Some entry ∧
    requests entry = if ok then filtered ++ [t2] else filtered.
Proof.
  unfold RateLimiter.checkRateLimit, surviving, requests_of. simpl.
  rewrite cleanup_windowMs, cleanup_maxRequests, lookup_insert_eq.
  eexists; split; [done|]. simpl.
  by destruct (store (RateLimiter.cleanup t1 rl) !! identifier).
Qed.

Lemma checkRateLimit_requests_of t1 t2 identifier rl :
  requests_of identifier (RateLimiter.checkRateLimit t1 t2 identifier rl).2 =
    if bool_decide (Z.of_nat (length (surviving t1 t2 identifier rl)) < maxRequests rl)
    then surviving t1 t2 identifier rl ++ [t2]
    else surviving t1 t2 identifier rl.
Proof.
  destruct (checkRateLimit_entry t1 t2 identifier rl) as (e & He & Hr).
  unfold requests_of. by rewrite He.
Qed.

Lemma checkRateLimit_windowMs t1 t2 identifier rl :
  windowMs (RateLimiter.checkRateLimit t1 t2 identifier rl).2 = windowMs rl.
Proof. simpl. apply cleanup_windowMs. Qed.

Lemma checkRateLimit_maxRequests t1 t2 identifier rl :
  maxRequests (RateLimiter.checkRateLimit t1 t2 identifier rl).2 = maxRequests rl.
Proof. simpl. apply cleanup_maxRequests. Qed.

Lemma surviving_sublist t1 t2 identifier rl :
  surviving t1 t2 identifier rl `sublist_of` requests_of identifier rl.
Proof.
  unfold surviving. etrans; [apply sublist_filter|apply cleanup_sublist].
Qed.

Lemma filter_all {A} (P : A → Prop) `{!∀ x, Decision (P x)} (l : list A) :
  Forall P l → filter P l = l.
Proof.
  induction 1 as [|x l Hx _ IH]; [done|]. by rewrite filter_cons_True, IH.
Qed.

Lemma filter_length_eq {A} (P : A → Prop) `{!∀ x, Decision (P x)} (l : list A) :
  length (filter P l) = length l → filter P l = l.
Proof.
  induction l as [|x l IH]; [done|]. rewrite filter_cons.
  case_decide; simpl; intros Hlen.
  - f_equal. apply IH. lia.
  - pose proof (length_filter P l). lia.
Qed.

(** When every stored timestamp is less than a window older than both
    readings of a call, all of them survive. *)
Lemma surviving_all t1 t2 identifier rl :
  Forall (λ t, t1 - t < windowMs rl ∧ t2 - t < windowMs rl) (requests_of identifier rl) →
  surviving t1 t2 identifier rl = requests_of identifier rl.
Proof.
  intros Hall. unfold surviving. rewrite cleanup_requests_of.
  assert (Hclean : filter (λ timestamp, t1 - timestamp < windowMs rl)
                     (requests_of identifier rl) = requests_of identifier rl).
  { apply filter_all. eapply Forall_impl; [exact Hall|]. simpl. intros; lia. }
  case_decide; [|rewrite Hclean];
    (apply filter_all; eapply Forall_impl; [exact Hall|]; simpl; intros; lia).
Qed.

End RateLimiterFacts.

(** C4.  Whatever the state of the limiter, the [remaining] field of the
    result of a [checkRateLimit] call is never negative; for a rejected call
    it equals [max(0, limit - count)], where [count] is the number of
    timestamps that survive the window filter; for an allowed call it is at
    most [limit - 1]. *)
Theorem remaining_bounds (t1 t2 : Z) (identifier : string) (rl : RateLimiter) :
  let r := (RateLimiter.checkRateLimit t1 t2 identifier rl).1 in
  let count := Z.of_nat (length (surviving t1 t2 identifier rl)) in
  0 ≤ remaining r ∧
  (allowed r = false → remaining r = Z.max 0 (limit r - count)) ∧
  (allowed r = true → remaining r ≤ limit r - 1).
Proof.
  intros r count. subst r. rewrite checkRateLimit_result. fold count. simpl.
  case_bool_decide as Hlt; repeat split; intros; try done; lia.
Qed.

Lemma one_window_elem (w : Z) (ts : list Z) (t t' : Z) :
  one_window w ts → t ∈ ts → t' ∈ ts → t' - t < w.
Proof.
  unfold one_window. rewrite Forall_forall. intros H Ht Ht'.
  specialize (H t Ht). rewrite Forall_forall in H. auto.
Qed.

(** A run of admitted calls: starting from the timestamps [pre], as long as
    the quota is not exhausted and all readings stay within a window of the
    stored timestamps, every call is allowed and appends its reading. *)
Lemma run_within (identifier : string) (calls : list (Z * Z)) :
  ∀ (rl : RateLimiter) (pre : list Z),
    requests_of identifier rl = pre →
    Forall (λ t', Forall (λ t, t' - t < windowMs rl) (pre ++ readings calls))
           (readings calls) →
    Z.of_nat (length pre + length calls) ≤ maxRequests rl →
    requests_of identifier (run identifier calls rl).2 = pre ++ calls.*2 ∧
    windowMs (run identifier calls rl).2 = windowMs rl ∧
    maxRequests (run identifier calls rl).2 = maxRequests rl ∧
    length (run identifier calls rl).1 = length calls ∧
    ∀ i r, (run identifier calls rl).1 !! i = Some r →
           allowed r = true ∧
           remaining r = maxRequests rl - 1 - Z.of_nat (length pre + i).
Proof.
  induction calls as [|[t1 t2] calls IH]; intros rl pre Hpre Hwin Hlen.
  { simpl. rewrite app_nil_r. repeat split; done. }
  assert (Hsurv : surviving t1 t2 identifier rl = pre).
  { rewrite surviving_all; [done|]. rewrite Hpre.
    change (readings ((t1, t2) :: calls)) with (t1 :: t2 :: readings calls) in Hwin.
    apply Forall_cons in Hwin as [H1 Hwin]. apply Forall_cons in Hwin as [H2 _].
    apply Forall_app in H1 as [H1 _]. apply Forall_app in H2 as [H2 _].
    apply Forall_forall. intros t Ht.
    rewrite Forall_forall in H1, H2. split; [by apply H1|by apply H2]. }
  assert (Hok : bool_decide (Z.of_nat (length pre) < maxRequests rl) = true).
  { apply bool_decide_eq_true. simpl in Hlen. lia. }
  pose proof (checkRateLimit_result t1 t2 identifier rl) as Hres.
  pose proof (checkRateLimit_requests_of t1 t2 identifier rl) as Hreq.
  pose proof (checkRateLimit_windowMs t1 t2 identifier rl) as Hw.
  pose proof (checkRateLimit_maxRequests t1 t2 identifier rl) as Hm.
  cbv zeta in Hres. rewrite Hsurv, Hok in Hres, Hreq.
  cbn [run]. destruct (RateLimiter.checkRateLimit t1 t2 identifier rl) as [r rl1].
  cbn [fst snd] in Hres, Hreq, Hw, Hm.
  specialize (IH rl1 (pre ++ [t2]) Hreq).
  destruct (run identifier calls rl1) as [rs rl2]. cbn [fst snd] in IH |- *.
  rewrite Hw, Hm in IH.
  destruct IH as (IH1 & IH2 & IH3 & IH4 & IH5).
  - change (readings ((t1, t2) :: calls)) with ([t1; t2] ++ readings calls) in Hwin.
    apply Forall_app in Hwin as [_ Hwin].
    eapply Forall_impl; [exact Hwin|]. cbv beta. intros t' Ht'.
    rewrite Forall_forall in Ht'. apply Forall_forall. intros t Ht.
    apply Ht'. clear -Ht. rewrite !elem_of_app in Ht |- *.
    rewrite !elem_of_cons. rewrite elem_of_cons in Ht. tauto.
  - rewrite length_app. simpl in *. lia.
  - rewrite IH1, <- app_assoc. do 3 (split; [done|]). split; [simpl; lia|].
    intros [|i] r' Hi; simpl in Hi.
    + inversion Hi; subst r'. rewrite Hres. simpl. split; [done|]. lia.
    + destruct (IH5 i r' Hi) as [Ha Hr]. split; [done|].
      rewrite Hr, length_app. simpl. lia.
Qed.

(** C1.  For an identifier without prior state, [maxRequests] calls whose
    clock readings all lie within one window are all allowed, the [i]-th of
    them (counting from 0) returning [remaining = maxRequests - 1 - i], so
    that [remaining] decreases from [maxRequests - 1] to [0]; one more call
    within the same window is rejected. *)
Theorem quota_within_window (identifier : string) (calls : list (Z * Z))
    (last : Z * Z) (rl : RateLimiter) :
  store rl !! identifier = None →
  Z.of_nat (length calls) = maxRequests rl →
  one_window (windowMs rl) (readings (calls ++ [last])) →
  let rs := (run identifier calls rl).1 in
  let rl' := (run identifier calls rl).2 in
  length rs = length calls ∧
  (∀ i r, rs !! i = Some r →
          allowed r = true ∧ remaining r = maxRequests rl - 1 - Z.of_nat i) ∧
  allowed (RateLimiter.checkRateLimit last.1 last.2 identifier rl').1 = false.
Proof.
  intros Hnone Hlen Hwin rs rl'. subst rs rl'.
  assert (Hread : readings (calls ++ [last]) = readings calls ++ [last.1; last.2]).
  { unfold readings. by rewrite bind_app. }
  rewrite Hread in Hwin.
  pose proof (λ t t', one_window_elem _ _ t t' Hwin) as Hpt. clear Hwin Hread.
  setoid_rewrite elem_of_app in Hpt.
  destruct (run_within identifier calls rl []) as (H1 & H2 & H3 & H4 & H5).
  { unfold requests_of. by rewrite Hnone. }
  { simpl. apply Forall_forall. intros t' Ht'. apply Forall_forall. intros t Ht.
    apply Hpt; by left. }
  { simpl. lia. }
  split; [done|]. split.
  { intros i r Hi. destruct (H5 i r Hi) as [Ha Hr]. split; [done|]. simpl in Hr. lia. }
  rewrite checkRateLimit_result. cbn [allowed].
  rewrite surviving_all.
  - rewrite H1, H3. simpl. rewrite length_fmap.
    apply bool_decide_eq_false. lia.
  - rewrite H1, H2. simpl.
    apply Forall_forall. intros t Ht.
    assert (Hin : t ∈ readings calls).
    { unfold readings. apply list_elem_of_bind.
      apply list_elem_of_fmap in Ht as (c & -> & Hc).
      exists c. split; [|done]. apply elem_of_cons. right. apply elem_of_cons. by left. }
    split; apply Hpt; try (by left); right.
    + apply elem_of_cons. by left.
    + apply elem_of_cons. right. apply elem_of_cons. by left.
Qed.

(** *** Reachable states *)

Lemma sublist_same_length {A} (l1 l2 : list A) :
  l1 `sublist_of` l2 → (length l2 ≤ length l1)%nat → l1 = l2.
Proof.
  induction 1 as [|x l1 l2 Hsub IH|x l1 l2 Hsub IH]; simpl; intros Hlen.
  - done.
  - f_equal. apply IH. lia.
  - apply sublist_length in Hsub. lia.
Qed.

Lemma filter_sublist_mono {A} (P : A → Prop) `{!∀ x, Decision (P x)} (l1 l2 : list A) :
  l1 `sublist_of` l2 → filter P l1 `sublist_of` filter P l2.
Proof.
  induction 1 as [|x l1 l2 Hsub IH|x l1 l2 Hsub IH]; [done| |].
  - rewrite !filter_cons. case_decide; [by constructor|done].
  - rewrite filter_cons. case_decide; [by constructor|done].
Qed.

(** A call does not touch the entries of other identifiers, apart from the
    cleanup it may trigger. *)
Lemma checkRateLimit_other t1 t2 (identifier other : string) (rl : RateLimiter) :
  other ≠ identifier →
  requests_of other (RateLimiter.checkRateLimit t1 t2 identifier rl).2 =
    requests_of other (RateLimiter.cleanup t1 rl).
Proof.
  intros Hne. unfold requests_of, RateLimiter.checkRateLimit. simpl.
  by rewrite lookup_insert_ne.
Qed.

Lemma reachable_params (w m : Z) (rl : RateLimiter) :
  reachable w m rl → windowMs rl = w ∧ maxRequests rl = m.
Proof.
  induction 1 as [t0|rl t1 t2 identifier _ [IHw IHm]|rl identifier _ IH]; [done| |done].
  by rewrite checkRateLimit_windowMs, checkRateLimit_maxRequests.
Qed.

(** No identifier ever holds more timestamps than the quota. *)
Lemma reachable_quota (w m : Z) (rl : RateLimiter) :
  reachable w m rl →
  ∀ identifier, Z.of_nat (length (requests_of identifier rl)) ≤ Z.max 0 m.
Proof.
  induction 1 as [t0|rl t1 t2 identifier Hreach IH|rl identifier Hreach IH]; intros other.
  - unfold requests_of. simpl. rewrite lookup_empty. simpl. lia.
  - destruct (reachable_params _ _ _ Hreach) as [_ Hm].
    destruct (decide (other = identifier)) as [->|Hne].
    + rewrite checkRateLimit_requests_of, Hm.
      pose proof (sublist_length _ _ (surviving_sublist t1 t2 identifier rl)) as Hs.
      specialize (IH identifier).
      case_bool_decide; [rewrite length_app; simpl|]; lia.
    + rewrite checkRateLimit_other by done.
      pose proof (sublist_length _ _ (cleanup_sublist t1 other rl)).
      specialize (IH other). lia.
  - specialize (IH other). unfold requests_of, RateLimiter.reset in *. simpl.
    destruct (decide (other = identifier)) as [->|Hne].
    + rewrite lookup_delete_eq. simpl. lia.
    + by rewrite lookup_delete_ne.
Qed.

(** C7.  A rejected call appends nothing: afterwards the identifier's entry
    holds exactly the previously stored timestamps that survive the window
    filter [timestamp > now - windowMs]. *)
Theorem rejected_not_recorded (w m : Z) (rl : RateLimiter) (t1 now : Z)
    (identifier : string) :
  reachable w m rl →
  allowed (RateLimiter.checkRateLimit t1 now identifier rl).1 = false →
  ∃ entry,
    store (RateLimiter.checkRateLimit t1 now identifier rl).2 !! identifier = Some entry ∧
    requests entry = filter (λ timestamp, timestamp > now - w) (requests_of identifier rl).
Proof.
  intros Hreach Hrej.
  destruct (reachable_params _ _ _ Hreach) as [Hw Hm].
  pose proof (reachable_quota _ _ _ Hreach identifier) as Hquota.
  rewrite checkRateLimit_result in Hrej. cbn [allowed] in Hrej.
  destruct (checkRateLimit_entry t1 now identifier rl) as (e & He & Hr).
  cbv zeta in Hr. rewrite Hrej in Hr. apply bool_decide_eq_false in Hrej.
  exists e. split; [done|]. rewrite Hr. unfold surviving. rewrite Hw.
  f_equal. apply sublist_same_length; [apply cleanup_sublist|].
  rewrite Hm in Hrej. unfold surviving in Hrej.
  pose proof (length_filter (λ timestamp, timestamp > now - windowMs rl)
                (requests_of identifier (RateLimiter.cleanup t1 rl))) as Hf.
  pose proof (sublist_length _ _ (cleanup_sublist t1 identifier rl)) as Hc.
  destruct (decide (0 < m)); [lia|].
  assert (Hnil : length (requests_of identifier rl) = 0%nat) by lia.
  lia.
Qed.

(** Calls for other identifiers can only shorten the timestamp sequence of
    an identifier (through the cleanup they trigger). *)
Lemma undisturbed_sublist (identifier : string) (rl rl' : RateLimiter) :
  undisturbed identifier rl rl' →
  requests_of identifier rl' `sublist_of` requests_of identifier rl.
Proof.
  induction 1 as [|rl' t1 t2 other _ IH Hne|rl' other _ IH Hne]; [done| |].
  - rewrite checkRateLimit_other by done. etrans; [apply cleanup_sublist|done].
  - unfold requests_of, RateLimiter.reset in *. simpl.
    by rewrite lookup_delete_ne.
Qed.

Lemma undisturbed_reachable (w m : Z) (identifier : string) (rl rl' : RateLimiter) :
  undisturbed identifier rl rl' → reachable w m rl → reachable w m rl'.
Proof. induction 1; intros; [done|constructor; auto..]. Qed.

(** C6.  After a rejected call, a call for the same identifier at any time
    later than the returned [resetTime] is allowed, provided no other call
    for that identifier came in between; calls for other identifiers may. *)
Theorem allowed_after_reset (w m : Z) (rl rl'' : RateLimiter) (t1 t2 t1' t2' : Z)
    (identifier : string) :
  0 < m →
  reachable w m rl →
  let r := (RateLimiter.checkRateLimit t1 t2 identifier rl).1 in
  let rl' := (RateLimiter.checkRateLimit t1 t2 identifier rl).2 in
  allowed r = false →
  undisturbed identifier rl' rl'' →
  t2' > resetTime r →
  allowed (RateLimiter.checkRateLimit t1' t2' identifier rl'').1 = true.
Proof.
  intros Hpos Hreach r rl' Hrej Hund Hlate. subst r.
  assert (Hreach' : reachable w m rl') by by constructor.
  pose proof (undisturbed_reachable _ _ _ _ _ Hund Hreach') as Hreach''.
  apply undisturbed_sublist in Hund.
  destruct (reachable_params _ _ _ Hreach) as [Hw Hm].
  destruct (reachable_params _ _ _ Hreach'') as [Hw'' Hm''].
  pose proof (reachable_quota _ _ _ Hreach' identifier) as Hquota.
  pose proof (checkRateLimit_requests_of t1 t2 identifier rl) as Hreq. fold rl' in Hreq.
  rewrite checkRateLimit_result in Hrej, Hlate. cbn [allowed resetTime] in Hrej, Hlate.
  rewrite Hrej in Hreq, Hlate. apply bool_decide_eq_false in Hrej.
  rewrite <- Hreq in Hrej, Hlate. rewrite Hm, Hw in *.
  clear Hreq Hreach' Hreach''. clearbody rl'.
  rewrite checkRateLimit_result. cbn [allowed]. apply bool_decide_eq_true.
  rewrite Hm''.
  destruct (requests_of identifier rl') as [|oldest rest] eqn:Hold;
    cbn [length oldestRequest] in *; [lia|].
  unfold surviving in *. rewrite Hw''.
  set (P := λ timestamp : Z, timestamp > t2' - w).
  assert (Hle : (length (filter P (requests_of identifier (RateLimiter.cleanup t1' rl'')))
                 ≤ length (filter P (oldest :: rest)))%nat).
  { apply sublist_length, filter_sublist_mono.
    etrans; [apply cleanup_sublist|done]. }
  rewrite filter_cons_False in Hle by (unfold P; lia).
  pose proof (length_filter P rest). lia.
Qed.

(** *** Order of the timestamps *)

Lemma sublist_StronglySorted {A} (R : relation A) (l1 l2 : list A) :
  l1 `sublist_of` l2 → StronglySorted R l2 → StronglySorted R l1.
Proof.
  induction 1 as [|x l1 l2 Hsub IH|x l1 l2 Hsub IH]; [done| |].
  - rewrite !StronglySorted_cons. intros [Hall Hs]. split; [|by apply IH].
    rewrite Forall_forall in Hall. apply Forall_forall. intros y Hy.
    apply Hall. by apply (sublist_subseteq _ _ Hsub).
  - rewrite StronglySorted_cons. intros [_ Hs]. by apply IH.
Qed.

Lemma sublist_Forall {A} (P : A → Prop) (l1 l2 : list A) :
  l1 `sublist_of` l2 → Forall P l2 → Forall P l1.
Proof.
  intros Hsub. rewrite !Forall_forall. intros Hall x Hx.
  by apply Hall, (sublist_subseteq _ _ Hsub).
Qed.

Lemma new_chronological (w m t0 bound : Z) : chronological bound (RateLimiter.new w m t0).
Proof.
  intros identifier. unfold requests_of. simpl. rewrite lookup_empty.
  split; constructor.
Qed.

(** With clock readings that do not go back, every sequence stays in
    chronological order. *)
Lemma checkRateLimit_chronological (bound t1 now : Z) (identifier : string)
    (rl : RateLimiter) :
  chronological bound rl → bound ≤ now →
  chronological now (RateLimiter.checkRateLimit t1 now identifier rl).2.
Proof.
  intros Hchr Hle other.
  assert (Hold : ∀ l, l `sublist_of` requests_of other rl →
                      StronglySorted Z.le l ∧ Forall (λ t, t ≤ now) l).
  { intros l Hsub. destruct (Hchr other) as [Hs Hb]. split.
    - by apply (sublist_StronglySorted _ _ _ Hsub).
    - apply (sublist_Forall _ _ _ Hsub). eapply Forall_impl; [exact Hb|].
      simpl. intros; lia. }
  destruct (decide (other = identifier)) as [->|Hne].
  - rewrite checkRateLimit_requests_of.
    destruct (Hold _ (surviving_sublist t1 now identifier rl)) as [Hs Hb].
    case_bool_decide; [|done]. split.
    + apply StronglySorted_app_2; [|done|repeat constructor].
      intros x1 x2 Hx1 ->%list_elem_of_singleton.
      rewrite Forall_forall in Hb. by apply Hb.
    + apply Forall_app. split; [done|]. repeat constructor. lia.
  - rewrite checkRateLimit_other by done. apply Hold, cleanup_sublist.
Qed.

(** Then the first timestamp of an entry, from which [resetTime] is
    computed, is the least one. *)
Lemma requests_chronological (bound t1 now : Z) (identifier : string) (rl : RateLimiter) :
  chronological bound rl → bound ≤ now →
  Forall (λ t, resetTime (RateLimiter.checkRateLimit t1 now identifier rl).1
               - windowMs rl ≤ t)
         (requests_of identifier (RateLimiter.checkRateLimit t1 now identifier rl).2).
Proof.
  intros Hchr Hle.
  destruct (checkRateLimit_chronological bound t1 now identifier rl Hchr Hle identifier)
    as [Hs _].
  rewrite checkRateLimit_requests_of in *. rewrite checkRateLimit_result. cbn [resetTime].
  destruct (if bool_decide _ then _ else _) as [|oldest rest]; [constructor|].
  cbn [oldestRequest]. apply StronglySorted_cons in Hs as [Hall _].
  constructor; [lia|]. eapply Forall_impl; [exact Hall|]. simpl. intros; lia.
Qed.

(** C5.  A call leaves the identifier's entry with the timestamps stored
    before it (after the cleanup of this call) that are still inside the
    window, in their stored order, with [now] appended exactly when the
    call is admitted, that is when fewer than [maxRequests] of them are
    left.  The [resetTime] of the result is the first timestamp of that
    sequence plus [windowMs], and [now + windowMs] when the sequence is
    empty.  When the clock readings have not gone back, the first timestamp
    is the oldest one: none of the entry is smaller. *)
Theorem resetTime_oldest (t1 now : Z) (identifier : string) (rl : RateLimiter) :
  let r := (RateLimiter.checkRateLimit t1 now identifier rl).1 in
  let rl' := (RateLimiter.checkRateLimit t1 now identifier rl).2 in
  let filtered := filter (λ timestamp, timestamp > now - windowMs rl)
                         (requests_of identifier (RateLimiter.cleanup t1 rl)) in
  ∃ entry,
    store rl' !! identifier = Some entry ∧
    allowed r = bool_decide (Z.of_nat (length filtered) < maxRequests rl) ∧
    requests entry = (if allowed r then filtered ++ [now] else filtered) ∧
    match requests entry with
    | first :: _ => resetTime r = first + windowMs rl
    | [] => resetTime r = now + windowMs rl
    end ∧
    ∀ bound, chronological bound rl → bound ≤ now →
      Forall (λ timestamp, resetTime r - windowMs rl ≤ timestamp) (requests entry).
Proof.
  intros r rl' filtered. subst r rl' filtered.
  destruct (checkRateLimit_entry t1 now identifier rl) as (e & He & Hr).
  exists e. split; [done|].
  assert (Hallowed : allowed (RateLimiter.checkRateLimit t1 now identifier rl).1
                     = bool_decide (Z.of_nat (length (surviving t1 now identifier rl))
                                    < maxRequests rl))
    by by rewrite checkRateLimit_result.
  split; [exact Hallowed|]. split; [by rewrite Hallowed|]. split.
  - rewrite Hr, checkRateLimit_result. simpl.
    by destruct (if bool_decide _ then _ else _).
  - intros bound Hchr Hle.
    pose proof (requests_chronological bound t1 now identifier rl Hchr Hle) as Hall.
    unfold requests_of in Hall. by rewrite He in Hall.
Qed.

(** *** The allow-list bypass *)

(** C10.  For an identifier of the [NO_RATE_LIMIT_IPS] allow-list the
    exported [checkRateLimit] returns its synthetic result and hands back
    the limiter exactly as it was: no entry is created or changed, the
    cleanup does not run ([lastGlobalCleanup] is unchanged as well), and
    [getStats] reports the same figures before and after. *)
Theorem bypass_leaves_limiter (env : ProcessEnv) (t1 t2 : Z) (ip : string)
    (rl : RateLimiter) :
  ip ∈ noRateLimitIps env →
  checkRateLimit env t1 t2 ip rl = (mkResult true 10 9 (t1 + 60000), rl) ∧
  RateLimiter.getStats (checkRateLimit env t1 t2 ip rl).2 = RateLimiter.getStats rl.
Proof.
  intros Hin. unfold checkRateLimit. by rewrite bool_decide_eq_true_2.
Qed.

(** For contrast: a call that is not bypassed always leaves an entry for
    the identifier in the store. *)
Lemma checked_leaves_entry (env : ProcessEnv) (t1 t2 : Z) (ip : string)
    (rl : RateLimiter) :
  ip ∉ noRateLimitIps env →
  is_Some (store (checkRateLimit env t1 t2 ip rl).2 !! ip).
Proof.
  intros Hout. unfold checkRateLimit. rewrite bool_decide_eq_false_2 by done.
  destruct (checkRateLimit_entry t1 t2 ip rl) as (e & He & _). by exists e.
Qed.

(** ** The request gate *)

Lemma truthy_spec (s : string) : truthy s = true ↔ s ≠ EmptyString.
Proof. by destruct s. Qed.

Lemma isAllowedOrigin_spec (request : NextRequest) (allowed : list string) :
  isAllowedOrigin (headers request !! "origin") allowed = true ↔
  origin_matches request allowed.
Proof.
  unfold isAllowedOrigin, origin_matches.
  destruct (headers request !! "origin") as [o|].
  - rewrite andb_true_iff, truthy_spec, bool_decide_eq_true. split.
    + intros [Hne Hin]. by exists o.
    + intros (o' & [= <-] & Hne & Hin). done.
  - split; [done|]. by intros (o' & [=] & _).
Qed.

Lemma isAllowedReferer_spec (request : NextRequest) (allowed : list string) :
  isAllowedReferer (headers request !! "referer") allowed = true ↔
  referer_matches request allowed.
Proof.
  unfold isAllowedReferer, referer_matches.
  destruct (headers request !! "referer") as [r|].
  - rewrite andb_true_iff, truthy_spec, existsb_exists. split.
    + intros [Hne (a & Hin & Hpre)]. exists r, a. by rewrite <- list_elem_of_In in Hin.
    + intros (r' & a & [= <-] & Hne & Hin & Hpre). split; [done|].
      exists a. by rewrite <- list_elem_of_In.
  - split; [done|]. by intros (r' & a & [=] & _).
Qed.

(** What the gate decides on a non-public [/api] path. *)
Lemma middleware_non_public (env : ProcessEnv) (t1 t2 t3 : Z)
    (request : NextRequest) (rl : RateLimiter) :
  non_public_api (pathname request) →
  ((middleware env t1 t2 t3 request rl).1 = forbidden ↔
   ¬ origin_matches request (allowedOrigins env) ∧
   ¬ referer_matches request (allowedOrigins env)) ∧
  (middleware env t1 t2 t3 request rl).2 = rl.
Proof.
  intros [Hapi Hpub]. unfold middleware. rewrite Hpub, Hapi. cbn [andb negb].
  rewrite <- isAllowedOrigin_spec, <- isAllowedReferer_spec.
  destruct (isAllowedOrigin _ _) eqn:Ho, (isAllowedReferer _ _) eqn:Hr;
    cbn [andb negb fst snd]; (split; [|done]);
    (split; [done|by intros [? ?]]).
Qed.

(** C8, as the code has it.  On a non-public [/api] path the gate answers
    with the bare 403 response exactly when neither a non-empty [Origin]
    header is an entry of the allow-list nor a non-empty [Referer] header
    starts with one; the limiter is not involved.  In particular a request
    without [Origin] header whose [Referer] matches no entry is rejected,
    whatever its body. *)
Theorem gate_forbidden_iff (env : ProcessEnv) (t1 t2 t3 : Z)
    (request : NextRequest) (rl : RateLimiter) :
  non_public_api (pathname request) →
  ((middleware env t1 t2 t3 request rl).1 = forbidden ↔
   ¬ origin_matches request (allowedOrigins env) ∧
   ¬ referer_matches request (allowedOrigins env)) ∧
  (headers request !! "origin" = None →
   ¬ referer_matches request (allowedOrigins env) →
   (middleware env t1 t2 t3 request rl).1 = forbidden) ∧
  (middleware env t1 t2 t3 request rl).2 = rl.
Proof.
  intros Hpath.
  destruct (middleware_non_public env t1 t2 t3 request rl Hpath) as [Hiff Hrl].
  split; [done|]. split; [|done].
  intros Hnone Href. apply Hiff. split; [|done].
  intros (o & Ho & _). by rewrite Hnone in Ho.
Qed.

(** When no entry of the allow-list is empty, an empty header value matches
    nothing, and the two conditions can be stated without the restriction
    to non-empty headers. *)
Lemma gate_forbidden_iff_listed (env : ProcessEnv) (t1 t2 t3 : Z)
    (request : NextRequest) (rl : RateLimiter) :
  non_public_api (pathname request) →
  EmptyString ∉ allowedOrigins env →
  (middleware env t1 t2 t3 request rl).1 = forbidden ↔
  ¬ origin_listed request (allowedOrigins env) ∧
  ¬ referer_listed request (allowedOrigins env).
Proof.
  intros Hpath Hne.
  destruct (middleware_non_public env t1 t2 t3 request rl Hpath) as [-> _].
  assert (Ho : origin_matches request (allowedOrigins env) ↔
               origin_listed request (allowedOrigins env)).
  { split.
    - intros (o & Hh & _ & Hin). by exists o.
    - intros (o & Hh & Hin). exists o. split_and!; try done. by intros ->. }
  assert (Hr : referer_matches request (allowedOrigins env) ↔
               referer_listed request (allowedOrigins env)).
  { split.
    - intros (r & a & Hh & _ & Hin & Hpre). by exists r, a.
    - intros (r & a & Hh & Hin & Hpre). exists r, a. split_and!; try done.
      intros ->. destruct a; [done|discriminate Hpre]. }
  by rewrite Ho, Hr.
Qed.

Lemma ceil_div_spec (x d : Z) :
  0 < d → d * (ceil_div x d - 1) < x ≤ d * ceil_div x d.
Proof.
  intros Hd. unfold ceil_div.
  pose proof (Z.div_mod (- x) d) as Hdm.
  pose proof (Z.mod_pos_bound (- x) d Hd). lia.
Qed.

Lemma ceil_div_nonneg (x d : Z) : 0 < d → 0 ≤ ceil_div x d ↔ - d < x.
Proof.
  intros Hd. pose proof (ceil_div_spec x d Hd). nia.
Qed.

(** The [resetTime] of a rejected call lies after the reading [now] of
    that call. *)
Lemma rejected_resetTime_future (t1 now : Z) (identifier : string) (rl : RateLimiter) :
  0 < windowMs rl →
  allowed (RateLimiter.checkRateLimit t1 now identifier rl).1 = false →
  now < resetTime (RateLimiter.checkRateLimit t1 now identifier rl).1.
Proof.
  intros Hw. rewrite checkRateLimit_result. cbn [allowed resetTime].
  intros ->. destruct (surviving t1 now identifier rl) as [|oldest rest] eqn:Hs;
    cbn [oldestRequest]; [lia|].
  assert (Hin : oldest ∈ surviving t1 now identifier rl).
  { rewrite Hs. apply elem_of_cons. by left. }
  unfold surviving in Hin. apply list_elem_of_filter in Hin as [Hgt _]. lia.
Qed.

(** C2, as the code has it.  A rejected public request is answered with
    status 429 and a [Retry-After] header holding the ceiling of
    [(resetTime - t3) / 1000], where [t3] is the clock reading the
    middleware takes after the limiter has returned.  That number is
    non-negative exactly when [t3] is less than a second past [resetTime];
    this is the case whenever [t3] is at most a second later than the
    reading [t2] of the limiter. *)
Theorem retry_after_header (env : ProcessEnv) (t1 t2 t3 : Z)
    (request : NextRequest) (rl : RateLimiter) :
  reachable 60000 10 rl →
  String.prefix "/api/public" (pathname request) = true →
  let r := (checkRateLimit env t1 t2 (getClientIP request) rl).1 in
  let response := (middleware env t1 t2 t3 request rl).1 in
  let seconds := ceil_div (resetTime r - t3) 1000 in
  allowed r = false →
  response_status response = Some 429 ∧
  response_header "Retry-After" response = Some (pretty seconds) ∧
  1000 * (seconds - 1) < resetTime r - t3 ≤ 1000 * seconds ∧
  (0 ≤ seconds ↔ t3 < resetTime r + 1000) ∧
  (t3 ≤ t2 + 1000 → 0 ≤ seconds).
Proof.
  intros Hreach Hpath r response seconds Hrej.
  assert (Hfuture : t2 < resetTime r).
  { subst r. unfold checkRateLimit in *. case_bool_decide; [done|].
    apply rejected_resetTime_future; [|done].
    destruct (reachable_params _ _ _ Hreach) as [-> _]. lia. }
  assert (Hresp : response =
    NextResponse_json
      (mkApiError "Too Many Requests" "Rate limit exceeded. Please try again later." 429)
      429 (rateLimitHeaders r ++ [("Retry-After", pretty seconds)])).
  { subst response seconds r. unfold middleware. rewrite Hpath.
    destruct (checkRateLimit env t1 t2 (getClientIP request) rl) as [r rl'].
    cbn [fst] in Hrej. by rewrite Hrej. }
  rewrite Hresp. split; [done|]. split; [done|].
  pose proof (ceil_div_spec (resetTime r - t3) 1000) as Hc.
  pose proof (ceil_div_nonneg (resetTime r - t3) 1000) as Hn.
  fold seconds in Hc, Hn. clearbody seconds r. lia.
Qed.

(** ** The price calculator *)

(** *** Comparisons of binary64 numbers *)

Lemma SFcompare_antisym (a b : spec_float) :
  SFcompare b a = option_map CompOpp (SFcompare a b).
Proof.
  destruct a as [sa|sa| |sa ma ea], b as [sb|sb| |sb mb eb]; simpl;
    try by (try destruct sa; try destruct sb).
  destruct sa, sb; simpl; try done; f_equal;
    rewrite (Z.compare_antisym ea eb);
    destruct (ea ?= eb)%Z; simpl; try done;
    pose proof (Pos.compare_cont_antisym ma mb Eq) as Hm; simpl in Hm;
    rewrite <- Hm; by destruct (Pos.compare_cont Eq ma mb).
Qed.

Lemma ltb_true_leb_false (x y : float) :
  (x <? y)%float = true → (y <=? x)%float = false.
Proof.
  rewrite ltb_spec, leb_spec. unfold SFltb, SFleb.
  rewrite (SFcompare_antisym (Prim2SF x) (Prim2SF y)).
  by destruct (SFcompare (Prim2SF x) (Prim2SF y)) as [[]|].
Qed.

Lemma leb_true_ltb_false (x y : float) :
  (x <=? y)%float = true → (y <? x)%float = false.
Proof.
  rewrite ltb_spec, leb_spec. unfold SFltb, SFleb.
  rewrite (SFcompare_antisym (Prim2SF x) (Prim2SF y)).
  by destruct (SFcompare (Prim2SF x) (Prim2SF y)) as [[]|].
Qed.

(** *** Stations and routes *)

Lemma getStationById_Some (stationId : string) (s : Station) :
  getStationById stationId = Some s → id s = stationId ∧ s ∈ stations stationsConfig.
Proof.
  intros Hfind. apply find_some in Hfind as [Hin Heq].
  apply String.eqb_eq in Heq. by rewrite list_elem_of_In.
Qed.

Lemma listed_station_truthy (stationId : string) :
  is_Some (getStationById stationId) → truthy stationId = true.
Proof.
  intros [s Hs]. apply getStationById_Some in Hs as [<- Hin].
  assert (Hall : Forall (λ s, truthy (id s) = true) (stations stationsConfig)).
  { repeat constructor. }
  rewrite Forall_forall in Hall. by apply Hall.
Qed.

(** No row of the price matrix is keyed by the identifier of the seventh
    station, and no row has a column keyed by it. *)
Lemma no_route_from_37s (to : string) : routeRate "37s-ko-vi-moon-14" to = None.
Proof.
  unfold routeRate.
  assert (priceMatrix stationsConfig !! "37s-ko-vi-moon-14" = None) as -> by by vm_compute.
  done.
Qed.

Lemma no_route_to_37s (from : string) : routeRate from "37s-ko-vi-moon-14" = None.
Proof.
  unfold routeRate.
  assert (Hall : map_Forall (λ _ (r : gmap string float), "37s-ko-vi-moon-14" ∉ dom r)
                            (priceMatrix stationsConfig)).
  { apply (bool_decide_unpack _). by vm_compute. }
  destruct (priceMatrix stationsConfig !! from) as [r|] eqn:Hrow; [|done].
  simpl. by apply not_elem_of_dom, (Hall from r).
Qed.

(** Validation guarantees what [calculatePrice] relies on. *)
Lemma calculatePrice_no_TypeError (request : CalculatePriceRequest) :
  calculatePrice request ≠ TypeError.
Proof.
  unfold calculatePrice, validateCalculationRequest.
  repeat (match goal with
          | |- context [if ?c then _ else _] => destruct c
          | |- context [match ?o with Some _ => _ | None => _ end] => destruct o
          end; simpl; try done).
Qed.

Lemma in_bounds_checks (request : CalculatePriceRequest) :
  in_bounds request →
  ((volume request <=? 0) || (maxVolume stationsConfig <? volume request))%float = false ∧
  ((collateral request <? 0) || (maxCollateral stationsConfig <? collateral request))%float
    = false.
Proof.
  intros (Hv1 & Hv2 & Hc1 & Hc2).
  by rewrite (ltb_true_leb_false _ _ Hv1), (leb_true_ltb_false _ _ Hv2),
             (leb_true_ltb_false _ _ Hc1), (leb_true_ltb_false _ _ Hc2).
Qed.

(** C3, as the code has it.  The station ['37s-ko-vi-moon-14'] is listed,
    yet for a volume and a collateral within bounds [calculatePrice] throws
    the error with message ['Price route not available'] whenever one of
    the two station identifiers is that station and the other one is the
    identifier of a listed station. *)
Theorem no_route_for_37s (request : CalculatePriceRequest) :
  in_bounds request →
  (pickupStationId request = "37s-ko-vi-moon-14" ∧
   is_Some (getStationById (destinationStationId request))) ∨
  (destinationStationId request = "37s-ko-vi-moon-14" ∧
   is_Some (getStationById (pickupStationId request))) →
  is_Some (getStationById "37s-ko-vi-moon-14") ∧
  calculatePrice request = Throw RouteNotAvailable ∧
  ∀ toLocaleString,
    error_message toLocaleString RouteNotAvailable = "Price route not available".
Proof.
  intros Hb Hside. split; [by eexists|]. split; [|done].
  assert (Hlisted : is_Some (getStationById "37s-ko-vi-moon-14")) by by eexists.
  assert (Hp : is_Some (getStationById (pickupStationId request))).
  { destruct Hside as [[-> _]|[_ H]]; done. }
  assert (Hd : is_Some (getStationById (destinationStationId request))).
  { destruct Hside as [[_ H]|[-> _]]; done. }
  assert (Hroute : routeRate (pickupStationId request) (destinationStationId request) = None).
  { destruct Hside as [[-> _]|[-> _]]; [apply no_route_from_37s|apply no_route_to_37s]. }
  destruct (in_bounds_checks request Hb) as [Hv Hc].
  unfold calculatePrice, validateCalculationRequest.
  rewrite (listed_station_truthy _ Hp), (listed_station_truthy _ Hd), Hv, Hc, Hroute.
  destruct Hp as [p ->], Hd as [d ->]. done.
Qed.

(** C9.  For known stations with a route rate and a volume and collateral
    within bounds, [calculatePrice] returns [basePrice = rate × volume],
    [collateralFee = collateral × collateralPercentage] and
    [totalPrice = basePrice + collateralFee], computed on binary64 numbers;
    for [rate = 300], [volume = 1000] and [collateral = 1000000] (and the
    configured [collateralPercentage = 0.01]) these are [300000], [10000]
    and [310000]. *)
Theorem calculatePrice_formula (request : CalculatePriceRequest)
    (pickup destination : Station) (rate : float) :
  getStationById (pickupStationId request) = Some pickup →
  getStationById (destinationStationId request) = Some destination →
  routeRate (pickupStationId request) (destinationStationId request) = Some rate →
  in_bounds request →
  let base := (rate * volume request)%float in
  let fee := (collateral request * collateralPercentage stationsConfig)%float in
  calculatePrice request =
    Return (mkCalculatePriceResponse base fee (base + fee)%float
              (name pickup) (name destination) (volume request) (collateral request)) ∧
  (rate = 300%float → volume request = 1000%float → collateral request = 1000000%float →
   collateralPercentage stationsConfig = 0.01%float ∧
   base = 300000%float ∧ fee = 10000%float ∧ (base + fee)%float = 310000%float).
Proof.
  intros Hp Hd Hroute Hb base fee. split.
  - destruct (in_bounds_checks request Hb) as [Hv Hc].
    unfold calculatePrice, validateCalculationRequest.
    rewrite (listed_station_truthy (pickupStationId request)) by by eexists.
    rewrite (listed_station_truthy (destinationStationId request)) by by eexists.
    by rewrite Hv, Hc, Hp, Hd, Hroute.
  - intros Hrate Hvol Hcol. subst base fee. rewrite Hrate, Hvol, Hcol.
    by vm_compute.
Qed.

(** * Instances *)

Lemma run_reachable (w m : Z) (identifier : string) (calls : list (Z * Z)) :
  ∀ rl, reachable w m rl → reachable w m (run identifier calls rl).2.
Proof.
  induction calls as [|[t1 t2] calls IH]; intros rl Hreach; [done|].
  cbn [run]. pose proof (reachable_check w m rl t1 t2 identifier Hreach) as Hstep.
  destruct (RateLimiter.checkRateLimit t1 t2 identifier rl) as [r rl1].
  specialize (IH rl1 Hstep). by destruct (run identifier calls rl1).
Qed.

Lemma exhausted_reachable : reachable 60000 10 exhausted.
Proof. apply run_reachable. constructor. Qed.

Lemma quota_within_window_witness :
  store (rateLimiter 0) !! example_ip = None ∧
  Z.of_nat (length ten_calls) = maxRequests (rateLimiter 0) ∧
  one_window (windowMs (rateLimiter 0)) (readings (ten_calls ++ [(59998, 59999)])) ∧
  (length (run example_ip ten_calls (rateLimiter 0)).1 = length ten_calls ∧
   (∀ i r, (run example_ip ten_calls (rateLimiter 0)).1 !! i = Some r →
           allowed r = true ∧ remaining r = maxRequests (rateLimiter 0) - 1 - Z.of_nat i) ∧
   allowed (RateLimiter.checkRateLimit 59998 59999 example_ip
              (run example_ip ten_calls (rateLimiter 0)).2).1 = false).
Proof.
  assert (H1 : store (rateLimiter 0) !! example_ip = None) by reflexivity.
  assert (H2 : Z.of_nat (length ten_calls) = maxRequests (rateLimiter 0)) by reflexivity.
  assert (H3 : one_window (windowMs (rateLimiter 0))
                 (readings (ten_calls ++ [(59998, 59999)]))).
  { apply (bool_decide_unpack _). vm_compute. exact I. }
  split; [exact H1|]. split; [exact H2|]. split; [exact H3|].
  exact (quota_within_window example_ip ten_calls (59998, 59999) (rateLimiter 0) H1 H2 H3).
Defined.

(** C5 on [spread]: a call at [65000] drops the timestamp [1000], keeps
    [30000] and [50000] and appends its own reading; [resetTime] is
    [30000 + 60000], and no timestamp of the entry is below [30000]. *)
Lemma resetTime_oldest_witness :
  chronological 50000 spread ∧
  50000 ≤ 65000 ∧
  requests_of example_ip spread = [1000; 30000; 50000] ∧
  ∃ entry,
    store (RateLimiter.checkRateLimit 65000 65000 example_ip spread).2 !! example_ip
      = Some entry ∧
    requests entry = [30000; 50000; 65000] ∧
    resetTime (RateLimiter.checkRateLimit 65000 65000 example_ip spread).1 = 90000 ∧
    Forall (λ timestamp, 30000 ≤ timestamp) (requests entry).
Proof.
  assert (H1 : chronological 50000 spread).
  { unfold spread.
    apply (checkRateLimit_chronological 30000); [|lia].
    apply (checkRateLimit_chronological 1000); [|lia].
    apply (checkRateLimit_chronological 0); [|lia].
    apply new_chronological. }
  assert (H2 : 50000 ≤ 65000) by lia.
  split; [exact H1|]. split; [exact H2|]. split; [by vm_compute|].
  pose proof (resetTime_oldest 65000 65000 example_ip spread) as H. cbv zeta in H.
  destruct H as (entry & Hentry & _ & Hrequests & Hfirst & Hleast).
  specialize (Hleast 50000 H1 H2).
  assert (Hr : resetTime (RateLimiter.checkRateLimit 65000 65000 example_ip spread).1
               = 90000) by (vm_compute; reflexivity).
  assert (Hseq : (if allowed (RateLimiter.checkRateLimit 65000 65000 example_ip spread).1
                  then filter (λ timestamp, timestamp > 65000 - windowMs spread)
                         (requests_of example_ip (RateLimiter.cleanup 65000 spread))
                       ++ [65000]
                  else filter (λ timestamp, timestamp > 65000 - windowMs spread)
                         (requests_of example_ip (RateLimiter.cleanup 65000 spread)))
                 = [30000; 50000; 65000]) by (vm_compute; reflexivity).
  exists entry. split; [exact Hentry|]. split; [by rewrite Hrequests|].
  split; [exact Hr|].
  rewrite Hr in Hleast. exact Hleast.
Defined.

(** C5 when the clock has gone back: after a call at [100] a call at [50]
    is admitted and leaves the entry [100; 50].  The oldest timestamp of the
    entry is [50], yet [resetTime] is [100 + 60000]. *)
Lemma resetTime_not_least :
  requests_of example_ip (RateLimiter.checkRateLimit 50 50 example_ip before_set_back).2
    = [100; 50] ∧
  allowed (RateLimiter.checkRateLimit 50 50 example_ip before_set_back).1 = true ∧
  windowMs before_set_back = 60000 ∧
  resetTime (RateLimiter.checkRateLimit 50 50 example_ip before_set_back).1 = 60100 ∧
  resetTime (RateLimiter.checkRateLimit 50 50 example_ip before_set_back).1
    ≠ 50 + windowMs before_set_back.
Proof. by vm_compute. Qed.

Lemma allowed_after_reset_witness :
  0 < 10 ∧
  reachable 60000 10 exhausted ∧
  allowed (RateLimiter.checkRateLimit 59998 59999 example_ip exhausted).1 = false ∧
  60002 > resetTime (RateLimiter.checkRateLimit 59998 59999 example_ip exhausted).1 ∧
  allowed
    (RateLimiter.checkRateLimit 60002 60002 example_ip
       (RateLimiter.checkRateLimit 60000 60001 "198.51.100.2"
          (RateLimiter.checkRateLimit 59998 59999 example_ip exhausted).2).2).1 = true.
Proof.
  assert (H1 : 0 < 10) by lia.
  assert (H2 : allowed (RateLimiter.checkRateLimit 59998 59999 example_ip exhausted).1 = false)
    by (vm_compute; reflexivity).
  assert (H3 : 60002 > resetTime (RateLimiter.checkRateLimit 59998 59999 example_ip exhausted).1)
    by (vm_compute; reflexivity).
  assert (H4 : "198.51.100.2" ≠ example_ip) by discriminate.
  split; [exact H1|]. split; [exact exhausted_reachable|].
  split; [exact H2|]. split; [exact H3|].
  exact (allowed_after_reset 60000 10 exhausted _ 59998 59999 60002 60002 example_ip
           H1 exhausted_reachable H2
           (undisturbed_check _ _ _ 60000 60001 "198.51.100.2"
              (undisturbed_refl _ _) H4)
           H3).
Defined.

Lemma rejected_not_recorded_witness :
  reachable 60000 10 exhausted ∧
  allowed (RateLimiter.checkRateLimit 59998 59999 example_ip exhausted).1 = false ∧
  ∃ entry,
    store (RateLimiter.checkRateLimit 59998 59999 example_ip exhausted).2 !! example_ip
      = Some entry ∧
    requests entry =
      filter (λ timestamp, timestamp > 59999 - 60000) (requests_of example_ip exhausted).
Proof.
  assert (H : allowed (RateLimiter.checkRateLimit 59998 59999 example_ip exhausted).1 = false)
    by (vm_compute; reflexivity).
  split; [exact exhausted_reachable|]. split; [exact H|].
  exact (rejected_not_recorded 60000 10 exhausted 59998 59999 example_ip
           exhausted_reachable H).
Defined.

Lemma bypass_leaves_limiter_witness :
  example_ip ∈ noRateLimitIps (mkEnv (Some "10.0.0.1, 203.0.113.7") None) ∧
  checkRateLimit (mkEnv (Some "10.0.0.1, 203.0.113.7") None) 5 6 example_ip exhausted
    = (mkResult true 10 9 (5 + 60000), exhausted) ∧
  RateLimiter.getStats
    (checkRateLimit (mkEnv (Some "10.0.0.1, 203.0.113.7") None) 5 6 example_ip exhausted).2
    = RateLimiter.getStats exhausted.
Proof.
  assert (H : example_ip ∈ noRateLimitIps (mkEnv (Some "10.0.0.1, 203.0.113.7") None)).
  { apply (bool_decide_unpack _). vm_compute. exact I. }
  split; [exact H|].
  exact (bypass_leaves_limiter (mkEnv (Some "10.0.0.1, 203.0.113.7") None)
           5 6 example_ip exhausted H).
Defined.

(** C2: the header a late reading produces.  Ten requests were admitted at
    times 1 to 9001; the request at time 59999 is rejected with
    [resetTime = 60001]; the middleware reads the clock at 61001 and
    sends [Retry-After: -1]. *)
Lemma retry_after_negative :
  reachable 60000 10 exhausted ∧
  String.prefix "/api/public" (pathname public_request) = true ∧
  allowed (checkRateLimit no_env 59998 59999 (getClientIP public_request) exhausted).1
    = false ∧
  response_status (middleware no_env 59998 59999 61001 public_request exhausted).1
    = Some 429 ∧
  response_header "Retry-After"
    (middleware no_env 59998 59999 61001 public_request exhausted).1
    = Some (pretty (-1)) ∧
  pretty (-1) = "-1".
Proof.
  split; [exact exhausted_reachable|]. by vm_compute.
Qed.

Lemma retry_after_header_witness :
  reachable 60000 10 exhausted ∧
  String.prefix "/api/public" (pathname public_request) = true ∧
  allowed (checkRateLimit no_env 59998 59999 (getClientIP public_request) exhausted).1
    = false ∧
  response_header "Retry-After"
    (middleware no_env 59998 59999 60000 public_request exhausted).1 = Some "1".
Proof.
  assert (H1 : String.prefix "/api/public" (pathname public_request) = true) by reflexivity.
  assert (H2 : allowed (checkRateLimit no_env 59998 59999
                          (getClientIP public_request) exhausted).1 = false)
    by (vm_compute; reflexivity).
  split; [exact exhausted_reachable|]. split; [exact H1|]. split; [exact H2|].
  destruct (retry_after_header no_env 59998 59999 60000 public_request exhausted
              exhausted_reachable H1 H2) as (_ & Hheader & _).
  rewrite Hheader. vm_compute. reflexivity.
Defined.

(** C8: an empty [Origin] header against an allow-list with an empty entry
    (here left by a trailing comma).  The header value is an entry of the
    list, and the gate still answers 403. *)
Lemma gate_rejects_listed_empty_origin :
  non_public_api (pathname (internal_request {[ "origin" := EmptyString ]})) ∧
  origin_listed (internal_request {[ "origin" := EmptyString ]})
                (allowedOrigins (mkEnv None (Some "https://bslc.example.com,"))) ∧
  (middleware (mkEnv None (Some "https://bslc.example.com,")) 0 0 0
              (internal_request {[ "origin" := EmptyString ]}) (rateLimiter 0)).1 = forbidden.
Proof.
  split; [done|]. split; [|by vm_compute].
  exists EmptyString. split; [done|]. apply (bool_decide_unpack _). by vm_compute.
Qed.

Lemma gate_forbidden_iff_witness :
  non_public_api (pathname (internal_request {[ "referer" := "https://evil.example/x" ]})) ∧
  (middleware (mkEnv None (Some "https://bslc.example.com")) 0 0 0
              (internal_request {[ "referer" := "https://evil.example/x" ]})
              (rateLimiter 0)).1 = forbidden.
Proof.
  assert (H : non_public_api
                (pathname (internal_request {[ "referer" := "https://evil.example/x" ]})))
    by (split; reflexivity).
  split; [exact H|].
  destruct (gate_forbidden_iff (mkEnv None (Some "https://bslc.example.com")) 0 0 0
              (internal_request {[ "referer" := "https://evil.example/x" ]})
              (rateLimiter 0) H) as (_ & Hparticular & _).
  apply Hparticular; [reflexivity|].
  intros (r & a & Hr & _ & Ha & Hpre).
  injection Hr as <-. apply list_elem_of_singleton in Ha as ->. discriminate Hpre.
Defined.

(** C3: with an unknown destination the error is another one. *)
Lemma unknown_destination_error :
  in_bounds (mkCalculatePriceRequest "37s-ko-vi-moon-14" "nowhere" 1 0) ∧
  calculatePrice (mkCalculatePriceRequest "37s-ko-vi-moon-14" "nowhere" 1 0)
    = Throw InvalidDestinationStation ∧
  error_message (λ _, EmptyString) InvalidDestinationStation
    ≠ "Price route not available".
Proof. by vm_compute. Qed.

Lemma no_route_for_37s_witness :
  in_bounds (mkCalculatePriceRequest "jita-iv-moon-4" "37s-ko-vi-moon-14" 1000 1000000) ∧
  is_Some (getStationById "jita-iv-moon-4") ∧
  calculatePrice (mkCalculatePriceRequest "jita-iv-moon-4" "37s-ko-vi-moon-14" 1000 1000000)
    = Throw RouteNotAvailable.
Proof.
  assert (Hb : in_bounds
            (mkCalculatePriceRequest "jita-iv-moon-4" "37s-ko-vi-moon-14" 1000 1000000))
    by (repeat split; reflexivity).
  assert (Hs : is_Some (getStationById "jita-iv-moon-4")) by (eexists; reflexivity).
  split; [exact Hb|]. split; [exact Hs|].
  exact (proj1 (proj2 (no_route_for_37s
    (mkCalculatePriceRequest "jita-iv-moon-4" "37s-ko-vi-moon-14" 1000 1000000)
    Hb (or_intror (conj eq_refl Hs))))).
Defined.

Lemma calculatePrice_formula_witness :
  in_bounds (mkCalculatePriceRequest "jita-iv-moon-4" "saminer" 1000 1000000) ∧
  routeRate "jita-iv-moon-4" "saminer" = Some 300%float ∧
  calculatePrice (mkCalculatePriceRequest "jita-iv-moon-4" "saminer" 1000 1000000) =
    Return (mkCalculatePriceResponse 300000 10000 310000
              "Jita IV - Moon 4 - Caldari Navy Assembly Plant"
              "Saminer - Stain is for Stain People" 1000 1000000).
Proof.
  assert (Hb : in_bounds (mkCalculatePriceRequest "jita-iv-moon-4" "saminer" 1000 1000000))
    by (repeat split; reflexivity).
  assert (Hr : routeRate "jita-iv-moon-4" "saminer" = Some 300%float)
    by (vm_compute; reflexivity).
  split; [exact Hb|]. split; [exact Hr|].
  destruct (calculatePrice_formula
              (mkCalculatePriceRequest "jita-iv-moon-4" "saminer" 1000 1000000)
              (mkStation "jita-iv-moon-4" "Jita IV - Moon 4 - Caldari Navy Assembly Plant"
                         "Jita" 30000142)
              (mkStation "saminer" "Saminer - Stain is for Stain People" "Saminer" 30001721)
              300%float eq_refl eq_refl Hr Hb) as [Hcalc Hex].
  destruct (Hex eq_refl eq_refl eq_refl) as (_ & Hbase & Hfee & Htotal).
  rewrite Hcalc. cbn [volume collateral name] in *. by rewrite Htotal, Hbase, Hfee.
Defined.

(** * Further properties *)

(** ** The sliding window over a whole trace *)

Lemma filter_filter_impl {A} (P Q : A → Prop) `{!∀ x, Decision (P x)}
    `{!∀ x, Decision (Q x)} (l : list A) :
  (∀ x, P x → Q x) → filter P (filter Q l) = filter P l.
Proof.
  intros Himpl. induction l as [|x l IH]; [done|].
  rewrite (filter_cons Q). destruct (decide (Q x)) as [HQ|HQ].
  - rewrite !filter_cons. by rewrite IH.
  - rewrite IH, (filter_cons_False P); [done|]. intros HP. by apply HQ, Himpl.
Qed.

Lemma filter_length_impl {A} (P Q : A → Prop) `{!∀ x, Decision (P x)}
    `{!∀ x, Decision (Q x)} (l : list A) :
  (∀ x, P x → Q x) → (length (filter P l) ≤ length (filter Q l))%nat.
Proof.
  intros Himpl. rewrite <- (filter_filter_impl P Q l Himpl). apply length_filter.
Qed.

Lemma fresh_agree_step (w : Z) (rl : RateLimiter) (bound t1 t2 : Z)
    (identifier : string) (adm : string → list Z) :
  windowMs rl = w → bound ≤ t1 → t1 ≤ t2 →
  fresh_agree w rl bound adm →
  fresh_agree w (RateLimiter.checkRateLimit t1 t2 identifier rl).2 t2
    (λ i, adm i ++
          if decide (identifier = i ∧
                     allowed (RateLimiter.checkRateLimit t1 t2 identifier rl).1 = true)
          then [t2] else []).
Proof.
  intros Hw Hb H12 Hagree other t Ht.
  assert (Hclean : filter (λ a, a > t - w) (requests_of other (RateLimiter.cleanup t1 rl))
                   = filter (λ a, a > t - w) (adm other)).
  { rewrite cleanup_requests_of, Hw, Hagree by lia.
    case_decide; [done|]. apply filter_filter_impl. intros; lia. }
  rewrite filter_app.
  destruct (decide (other = identifier)) as [->|Hne].
  - rewrite checkRateLimit_requests_of, checkRateLimit_result. cbn [allowed].
    assert (Hsurv : filter (λ a, a > t - w) (surviving t1 t2 identifier rl)
                    = filter (λ a, a > t - w) (adm identifier)).
    { unfold surviving. rewrite Hw, <- Hclean. apply filter_filter_impl. intros; lia. }
    case_bool_decide.
    + rewrite decide_True by done. by rewrite filter_app, Hsurv.
    + rewrite decide_False by (by intros [_ ?]). by rewrite app_nil_r, Hsurv.
  - rewrite decide_False by (by intros [? _]).
    by rewrite app_nil_r, checkRateLimit_other, Hclean.
Qed.

Lemma admitted_cons (identifier : string) (e : Served) (log : list Served) :
  admitted identifier (e :: log) =
    (if decide (served_identifier e = identifier ∧ allowed (served_result e) = true)
     then [served_at e] else []) ++ admitted identifier log.
Proof.
  unfold admitted. rewrite filter_cons. by case_decide.
Qed.

Lemma admitted_app (identifier : string) (log1 log2 : list Served) :
  admitted identifier (log1 ++ log2) = admitted identifier log1 ++ admitted identifier log2.
Proof. unfold admitted. by rewrite filter_app, fmap_app. Qed.

Lemma serve_app (calls1 calls2 : list (string * (Z * Z))) :
  ∀ rl,
    serve (calls1 ++ calls2) rl =
      ((serve calls1 rl).1 ++ (serve calls2 (serve calls1 rl).2).1,
       (serve calls2 (serve calls1 rl).2).2).
Proof.
  induction calls1 as [|[identifier [t1 t2]] calls1 IH]; intros rl.
  - simpl. by destruct (serve calls2 rl).
  - cbn [serve app]. destruct (RateLimiter.checkRateLimit t1 t2 identifier rl) as [r rl1].
    rewrite IH. by destruct (serve calls1 rl1), (serve calls2 _).
Qed.

Lemma serve_reachable (w m : Z) (calls : list (string * (Z * Z))) :
  ∀ rl, reachable w m rl → reachable w m (serve calls rl).2.
Proof.
  induction calls as [|[identifier [t1 t2]] calls IH]; intros rl Hreach; [done|].
  cbn [serve]. pose proof (reachable_check w m rl t1 t2 identifier Hreach) as Hstep.
  destruct (RateLimiter.checkRateLimit t1 t2 identifier rl) as [r rl1].
  specialize (IH rl1 Hstep). by destruct (serve calls rl1).
Qed.

(** Along a trace with a clock that never goes back, the limiter keeps
    agreeing with the log of admissions. *)
Lemma serve_fresh_agree (w : Z) (calls : list (string * (Z * Z))) :
  ∀ (rl : RateLimiter) (bound : Z) (adm : string → list Z),
    windowMs rl = w →
    fresh_agree w rl bound adm →
    StronglySorted Z.le (bound :: clock calls) →
    ∀ bound', Forall (λ t, t ≤ bound') (bound :: clock calls) →
      fresh_agree w (serve calls rl).2 bound'
        (λ i, adm i ++ admitted i (serve calls rl).1).
Proof.
  induction calls as [|[identifier [t1 t2]] calls IH];
    intros rl bound adm Hw Hagree Hsorted bound' Hbound'.
  - simpl. intros i t Ht. unfold admitted. simpl. rewrite app_nil_r.
    apply Hagree. apply Forall_cons in Hbound' as [? _]. lia.
  - change (clock ((identifier, (t1, t2)) :: calls)) with (t1 :: t2 :: clock calls)
      in Hsorted, Hbound'.
    apply StronglySorted_cons in Hsorted as [Hb1 Hsorted].
    apply StronglySorted_cons in Hsorted as [H12 Hsorted].
    apply Forall_cons in Hb1 as [Hb1 _]. apply Forall_cons in H12 as [Ht12 _].
    apply Forall_cons in Hbound' as [_ Hbound']. apply Forall_cons in Hbound' as [_ Hbound'].
    pose proof (fresh_agree_step w rl bound t1 t2 identifier adm Hw Hb1) as Hstep.
    pose proof (checkRateLimit_windowMs t1 t2 identifier rl) as Hw1.
    cbn [serve]. destruct (RateLimiter.checkRateLimit t1 t2 identifier rl) as [r rl1].
    cbn [fst snd] in Hstep, Hw1.
    specialize (Hstep Ht12 Hagree).
    specialize (IH rl1 t2 _ (eq_trans Hw1 Hw) Hstep).
    destruct (serve calls rl1) as [log rl2]. cbn [fst snd] in IH |- *.
    intros i t Ht. rewrite admitted_cons. cbn [served_identifier served_result served_at].
    rewrite app_assoc. by apply (IH Hsorted bound' Hbound').
Qed.

Lemma sorted_with_lower_bound (l : list Z) (top : Z) :
  StronglySorted Z.le l → Forall (λ x, x ≤ top) l →
  ∃ b, StronglySorted Z.le (b :: l) ∧ b ≤ top.
Proof.
  intros Hs Htop. destruct l as [|h l].
  - exists top. split; [repeat constructor|lia].
  - exists h. apply Forall_cons in Htop as [Hh _]. split; [|done].
    constructor; [done|]. apply StronglySorted_cons in Hs as [Hall _].
    constructor; [lia|done].
Qed.

(** The guarantee of the limiter.  Along any trace of calls whose clock
    readings never go back, starting from a new limiter, the requests of one
    identifier admitted within any time window [(t - windowMs, t]] number
    at most [maxRequests]. *)
Theorem sliding_window_guarantee (w m t0 : Z) (calls : list (string * (Z * Z)))
    (identifier : string) (t : Z) :
  StronglySorted Z.le (clock calls) →
  Z.of_nat (length (filter (λ a, t - w < a ≤ t)
                      (admitted identifier (serve calls (RateLimiter.new w m t0)).1)))
    ≤ Z.max 0 m.
Proof.
  induction calls as [|[i [t1 t2]] calls IH] using rev_ind; intros Hsorted.
  { simpl. lia. }
  assert (Hclock : clock (calls ++ [(i, (t1, t2))]) = clock calls ++ [t1; t2]).
  { unfold clock. by rewrite bind_app. }
  rewrite Hclock in Hsorted.
  pose proof (StronglySorted_app_1_l _ _ _ Hsorted) as Hprefix.
  assert (Ht12 : t1 ≤ t2).
  { apply StronglySorted_app_1_r, StronglySorted_cons in Hsorted as [Hall _].
    by apply Forall_cons in Hall as [? _]. }
  assert (Hlast : Forall (λ x, x ≤ t2) (clock calls ++ [t1; t2])).
  { apply Forall_app. split; [|repeat constructor; lia].
    apply Forall_forall. intros x Hx.
    pose proof (StronglySorted_app_1_elem_of _ _ _ x t1 Hsorted Hx) as Hle.
    etrans; [apply Hle; apply elem_of_cons; by left|done]. }
  destruct (decide (t2 ≤ t)) as [Hlate|Hearly].
  - destruct (sorted_with_lower_bound _ t2 Hsorted Hlast) as (b & Hb & Hbt).
    rewrite <- Hclock in Hb, Hlast.
    pose proof (serve_fresh_agree w (calls ++ [(i, (t1, t2))]) (RateLimiter.new w m t0)
                  b (λ _, []) eq_refl) as Hagree.
    specialize (Hagree (λ _ _ _, eq_refl) Hb t).
    assert (Heq : filter (λ a, a > t - w)
                    (admitted identifier
                       (serve (calls ++ [(i, (t1, t2))]) (RateLimiter.new w m t0)).1) =
                  filter (λ a, a > t - w)
                    (requests_of identifier
                       (serve (calls ++ [(i, (t1, t2))]) (RateLimiter.new w m t0)).2)).
    { apply (Hagree); [|lia].
      constructor; [lia|]. eapply Forall_impl; [exact Hlast|]. simpl. intros; lia. }
    pose proof (filter_length_impl (λ a, t - w < a ≤ t) (λ a, a > t - w)
                  (admitted identifier
                     (serve (calls ++ [(i, (t1, t2))]) (RateLimiter.new w m t0)).1)) as H1.
    rewrite Heq in H1.
    pose proof (length_filter (λ a, a > t - w)
                  (requests_of identifier
                     (serve (calls ++ [(i, (t1, t2))]) (RateLimiter.new w m t0)).2)) as H2.
    pose proof (reachable_quota w m _
                  (serve_reachable w m (calls ++ [(i, (t1, t2))]) _ (reachable_new w m t0))
                  identifier) as H3.
    specialize (H1 ltac:(intros; lia)). lia.
  - rewrite serve_app. cbn [fst]. rewrite admitted_app, filter_app, length_app.
    assert (Hnone : filter (λ a, t - w < a ≤ t)
              (admitted identifier
                 (serve [(i, (t1, t2))] (serve calls (RateLimiter.new w m t0)).2).1) = []).
    { cbn [serve]. destruct (RateLimiter.checkRateLimit _ _ _ _) as [r rl1]. cbn [fst].
      rewrite admitted_cons. cbn [served_at]. case_decide; [|done].
      cbn [app admitted]. unfold admitted. simpl.
      rewrite filter_cons_False; [done|lia]. }
    rewrite Hnone. simpl. rewrite Nat.add_0_r. by apply IH.
Qed.

(** ** Cleanup, isolation and reset *)

Lemma filter_none {A} (P : A → Prop) `{!∀ x, Decision (P x)} (l : list A) :
  Forall (λ x, ¬ P x) l → filter P l = [].
Proof.
  induction 1 as [|x l Hx _ IH]; [done|]. by rewrite filter_cons_False.
Qed.

Lemma cleanup_lookup (now : Z) (identifier : string) (rl : RateLimiter) :
  cleanupInterval rl ≤ now - lastGlobalCleanup rl →
  store (RateLimiter.cleanup now rl) !! identifier =
    store rl !! identifier ≫= RateLimiter.cleanup_entry (windowMs rl) now.
Proof.
  intros Hdue. unfold RateLimiter.cleanup. rewrite decide_False by lia.
  simpl. apply lookup_omap.
Qed.

(** A cleanup that is due leaves no empty entry behind: every entry that
    remains holds at least one timestamp, all its timestamps are less than
    a window old, and the store has not grown. *)
Theorem cleanup_keeps_live_entries (now : Z) (rl : RateLimiter) :
  cleanupInterval rl ≤ now - lastGlobalCleanup rl →
  (∀ identifier entry,
     store (RateLimiter.cleanup now rl) !! identifier = Some entry →
     requests entry ≠ [] ∧
     Forall (λ t, now - t < windowMs rl) (requests entry) ∧
     requests entry `sublist_of` requests_of identifier rl) ∧
  (size (store (RateLimiter.cleanup now rl)) ≤ size (store rl))%nat ∧
  lastGlobalCleanup (RateLimiter.cleanup now rl) = now.
Proof.
  intros Hdue. split; [|split].
  - intros identifier entry. rewrite cleanup_lookup by done. unfold requests_of.
    destruct (store rl !! identifier) as [e|]; simpl; [|done].
    unfold RateLimiter.cleanup_entry. case_decide as Hlen; [done|].
    intros [= <-]. simpl. split_and!.
    + intros Hnil. by rewrite Hnil in Hlen.
    + apply Forall_forall. by intros t [? _]%list_elem_of_filter.
    + apply sublist_filter.
  - unfold RateLimiter.cleanup. rewrite decide_False by lia. simpl.
    rewrite <- !size_dom. apply subseteq_size, dom_omap_subseteq.
  - unfold RateLimiter.cleanup. by rewrite decide_False by lia.
Qed.

(** One-shot clients do not accumulate.  When a call triggers the cleanup
    and every stored timestamp is at least a window old, all previous
    entries are deleted: afterwards [getStats] counts the caller alone. *)
Theorem expired_identifiers_dropped (t1 t2 : Z) (identifier : string) (rl : RateLimiter) :
  cleanupInterval rl ≤ t1 - lastGlobalCleanup rl →
  (∀ other t, t ∈ requests_of other rl → windowMs rl ≤ t1 - t) →
  0 < maxRequests rl →
  RateLimiter.getStats (RateLimiter.checkRateLimit t1 t2 identifier rl).2
    = RateLimiter.mkStats 1 1.
Proof.
  intros Hdue Hexpired Hpos.
  assert (Hempty : store (RateLimiter.cleanup t1 rl) = ∅).
  { apply map_empty. intros other. rewrite cleanup_lookup by done.
    specialize (Hexpired other). unfold requests_of in Hexpired.
    destruct (store rl !! other) as [e|]; simpl; [|done].
    unfold RateLimiter.cleanup_entry. rewrite decide_True; [done|].
    rewrite filter_none; [done|].
    apply Forall_forall. intros t Ht. specialize (Hexpired t Ht). lia. }
  unfold RateLimiter.getStats, RateLimiter.checkRateLimit. simpl.
  rewrite Hempty, lookup_empty, cleanup_maxRequests. simpl.
  rewrite bool_decide_eq_true_2 by lia. simpl.
  by rewrite insert_empty, map_size_singleton, map_fold_singleton.
Qed.

(** Isolation.  A call for one identifier never adds a timestamp to another
    identifier, and leaves the other entries exactly as they were unless it
    triggers the cleanup. *)
Theorem other_identifiers_isolated (t1 t2 : Z) (identifier other : string)
    (rl : RateLimiter) :
  other ≠ identifier →
  requests_of other (RateLimiter.checkRateLimit t1 t2 identifier rl).2
    `sublist_of` requests_of other rl ∧
  (t1 - lastGlobalCleanup rl < cleanupInterval rl →
   store (RateLimiter.checkRateLimit t1 t2 identifier rl).2 !! other = store rl !! other).
Proof.
  intros Hne. split.
  - rewrite checkRateLimit_other by done. apply cleanup_sublist.
  - intros Hearly. unfold RateLimiter.checkRateLimit, RateLimiter.cleanup.
    rewrite decide_True by done. simpl. by rewrite lookup_insert_ne.
Qed.

(** [reset] restores the full quota of an identifier, whatever it had used,
    and touches no other entry. *)
Theorem reset_restores_quota (t1 t2 : Z) (identifier : string) (rl : RateLimiter) :
  0 < maxRequests rl →
  (RateLimiter.checkRateLimit t1 t2 identifier (RateLimiter.reset identifier rl)).1
    = mkResult true (maxRequests rl) (maxRequests rl - 1) (t2 + windowMs rl) ∧
  ∀ other, other ≠ identifier →
    store (RateLimiter.reset identifier rl) !! other = store rl !! other.
Proof.
  intros Hpos. split.
  - rewrite checkRateLimit_result.
    assert (Hnone : surviving t1 t2 identifier (RateLimiter.reset identifier rl) = []).
    { apply sublist_nil_r. etrans; [apply surviving_sublist|].
      unfold requests_of, RateLimiter.reset. simpl. by rewrite lookup_delete_eq. }
    rewrite Hnone. simpl. rewrite bool_decide_eq_true_2 by lia. simpl.
    f_equal. lia.
  - intros other Hne. unfold RateLimiter.reset. simpl. by rewrite lookup_delete_ne.
Qed.

(** ** Figures reported by [getStats] *)

(** The memory the limiter uses is bounded by the quota: in every reachable
    state [getStats] reports at most [maxRequests] timestamps per key. *)
Theorem stats_within_quota (w m : Z) (rl : RateLimiter) :
  0 ≤ m →
  reachable w m rl →
  0 ≤ RateLimiter.totalRequests (RateLimiter.getStats rl) ≤
    m * RateLimiter.totalKeys (RateLimiter.getStats rl).
Proof.
  intros Hm Hreach.
  assert (Hquota : ∀ i e, store rl !! i = Some e → Z.of_nat (length (requests e)) ≤ m).
  { intros i e He. pose proof (reachable_quota w m rl Hreach i) as Hq.
    unfold requests_of in Hq. rewrite He in Hq. lia. }
  unfold RateLimiter.getStats. simpl. revert Hquota. generalize (store rl). clear.
  intros s.
  apply (map_fold_weak_ind
           (λ total (s : gmap string RateLimitEntry),
              (∀ i e, s !! i = Some e → Z.of_nat (length (requests e)) ≤ m) →
              0 ≤ total ≤ m * Z.of_nat (size s))).
  - intros _. rewrite map_size_empty. lia.
  - intros i e s' total Hnone IH Hall.
    rewrite map_size_insert_None by done.
    pose proof (Hall i e (lookup_insert_eq _ _ _)) as He.
    assert (0 ≤ total ≤ m * Z.of_nat (size s')) as Htotal.
    { apply IH. intros j e' Hj. apply (Hall j e').
      rewrite lookup_insert_ne; [done|]. intros ->. by rewrite Hnone in Hj. }
    lia.
Qed.

(** ** The time of reset *)

Lemma resetTime_range (bound t1 now : Z) (identifier : string) (rl : RateLimiter) :
  0 < windowMs rl →
  chronological bound rl → bound ≤ now →
  now < resetTime (RateLimiter.checkRateLimit t1 now identifier rl).1 ≤ now + windowMs rl.
Proof.
  intros Hw Hchr Hle.
  destruct (checkRateLimit_chronological bound t1 now identifier rl Hchr Hle identifier)
    as [_ Hupper].
  rewrite checkRateLimit_requests_of in Hupper.
  rewrite checkRateLimit_result. cbn [resetTime].
  assert (Hlower : Forall (λ t, now - windowMs rl < t)
            (if bool_decide (Z.of_nat (length (surviving t1 now identifier rl))
                             < maxRequests rl)
             then surviving t1 now identifier rl ++ [now]
             else surviving t1 now identifier rl)).
  { assert (Hs : Forall (λ t, now - windowMs rl < t) (surviving t1 now identifier rl)).
    { apply Forall_forall. unfold surviving.
      intros t [? _]%list_elem_of_filter. lia. }
    case_bool_decide; [|done]. apply Forall_app. split; [done|].
    repeat constructor. lia. }
  destruct (if bool_decide _ then _ else _) as [|oldest rest]; cbn [oldestRequest]; [lia|].
  apply Forall_cons in Hupper as [? _]. apply Forall_cons in Hlower as [? _]. lia.
Qed.

(** With a positive window and a clock that does not go back, the
    [resetTime] a call returns lies after the call and at most one window
    later; a rejected call reports that nothing remains. *)
Theorem resetTime_within_window (bound t1 now : Z) (identifier : string)
    (rl : RateLimiter) :
  0 < windowMs rl →
  chronological bound rl → bound ≤ now →
  let r := (RateLimiter.checkRateLimit t1 now identifier rl).1 in
  now < resetTime r ≤ now + windowMs rl ∧
  (allowed r = false → remaining r = 0).
Proof.
  intros Hw Hchr Hle r. split; [by apply (resetTime_range bound)|].
  subst r. rewrite checkRateLimit_result. cbn [allowed remaining].
  case_bool_decide; [done|]. intros _. lia.
Qed.

(** ** The gate, continued *)

Lemma prefix_api_public (path : string) :
  String.prefix "/api/public" path = true → String.prefix "/api" path = true.
Proof.
  intros H.
  repeat match goal with
         | H : String.prefix (String _ _) ?p = true |- _ =>
             destruct p as [|? ?]; cbn [String.prefix] in H; [discriminate H|];
             destruct (Ascii.ascii_dec _ _) as [<-|]; [|discriminate H]
         end.
  reflexivity.
Qed.

(** The gate applies one policy per path.  A public path is never answered
    by the origin check, and its effect on the limiter is that of one
    [checkRateLimit] call for the client address; any other path leaves the
    limiter alone; a path outside [/api] passes through. *)
Theorem gate_one_policy (env : ProcessEnv) (t1 t2 t3 : Z) (request : NextRequest)
    (rl : RateLimiter) :
  (String.prefix "/api/public" (pathname request) = true →
   (middleware env t1 t2 t3 request rl).1 ≠ forbidden ∧
   (middleware env t1 t2 t3 request rl).2
     = (checkRateLimit env t1 t2 (getClientIP request) rl).2) ∧
  (String.prefix "/api/public" (pathname request) = false →
   (middleware env t1 t2 t3 request rl).2 = rl) ∧
  (String.prefix "/api" (pathname request) = false →
   middleware env t1 t2 t3 request rl = (NextResponse_next [], rl)).
Proof.
  unfold middleware. split_and!.
  - intros ->. destruct (checkRateLimit _ _ _ _ _) as [r rl']. cbn [fst snd].
    by destruct (allowed r).
  - intros ->. destruct (String.prefix "/api" _); cbn [andb negb]; [|done].
    by destruct (negb _ && negb _).
  - intros Hapi. destruct (String.prefix "/api/public" _) eqn:Hpub.
    + apply prefix_api_public in Hpub. congruence.
    + by rewrite Hapi.
Qed.

(** A client of the [NO_RATE_LIMIT_IPS] list is never answered 429 on a
    public path, whatever the state of the limiter: the request passes with
    the fixed figures [10] and [9], and the limiter is not touched. *)
Theorem bypassed_client_passes (env : ProcessEnv) (t1 t2 t3 : Z)
    (request : NextRequest) (rl : RateLimiter) :
  String.prefix "/api/public" (pathname request) = true →
  getClientIP request ∈ noRateLimitIps env →
  middleware env t1 t2 t3 request rl =
    (NextResponse_next [ ("X-RateLimit-Limit", "10");
                         ("X-RateLimit-Remaining", "9");
                         ("X-RateLimit-Reset", pretty (t1 + 60000)) ],
     rl).
Proof.
  intros Hpath Hin. unfold middleware, checkRateLimit.
  by rewrite Hpath, bool_decide_eq_true_2.
Qed.

Lemma chronological_mono (bound bound' : Z) (rl : RateLimiter) :
  chronological bound rl → bound ≤ bound' → chronological bound' rl.
Proof.
  intros Hchr Hle identifier. destruct (Hchr identifier) as [Hs Hb]. split; [done|].
  eapply Forall_impl; [exact Hb|]. simpl. intros; lia.
Qed.

Lemma run_chronological (identifier : string) (calls : list (Z * Z)) :
  ∀ (rl : RateLimiter) (bound : Z),
    chronological bound rl →
    StronglySorted Z.le (bound :: calls.*2) →
    ∀ bound', Forall (λ t, t ≤ bound') (bound :: calls.*2) →
      chronological bound' (run identifier calls rl).2.
Proof.
  induction calls as [|[t1 t2] calls IH]; intros rl bound Hchr Hsorted bound' Hbound'.
  - simpl. apply (chronological_mono bound); [done|].
    by apply Forall_cons in Hbound' as [? _].
  - cbn [fmap list_fmap snd] in Hsorted, Hbound'.
    apply StronglySorted_cons in Hsorted as [Hall Hsorted].
    apply Forall_cons in Hall as [Hle _]. apply Forall_cons in Hbound' as [_ Hbound'].
    pose proof (checkRateLimit_chronological bound t1 t2 identifier rl Hchr Hle) as Hstep.
    cbn [run]. destruct (RateLimiter.checkRateLimit t1 t2 identifier rl) as [r rl1].
    specialize (IH rl1 t2 Hstep Hsorted bound' Hbound').
    by destruct (run identifier calls rl1).
Qed.

(** What a 429 response tells the client of the exported limiter.  The
    limit is 10 and nothing remains; and when the clock has not gone back
    and the middleware reads the same time as the limiter did, [Retry-After]
    is between 1 and 60 seconds. *)
Theorem too_many_requests_headers (env : ProcessEnv) (bound t1 t2 : Z)
    (request : NextRequest) (rl : RateLimiter) :
  reachable 60000 10 rl →
  chronological bound rl → bound ≤ t2 →
  String.prefix "/api/public" (pathname request) = true →
  allowed (checkRateLimit env t1 t2 (getClientIP request) rl).1 = false →
  let response := (middleware env t1 t2 t2 request rl).1 in
  response_status response = Some 429 ∧
  response_header "X-RateLimit-Limit" response = Some "10" ∧
  response_header "X-RateLimit-Remaining" response = Some "0" ∧
  ∃ seconds, response_header "Retry-After" response = Some (pretty seconds) ∧
             1 ≤ seconds ≤ 60.
Proof.
  intros Hreach Hchr Hle Hpath Hrej response.
  destruct (reachable_params _ _ _ Hreach) as [Hw Hm].
  unfold checkRateLimit in Hrej.
  assert (Hout : bool_decide (getClientIP request ∈ noRateLimitIps env) = false).
  { by destruct (bool_decide _). }
  rewrite Hout in Hrej.
  pose proof (resetTime_range bound t1 t2 (getClientIP request) rl) as Hrange.
  rewrite Hw in Hrange. specialize (Hrange ltac:(lia) Hchr Hle).
  pose proof (checkRateLimit_result t1 t2 (getClientIP request) rl) as Hres.
  cbv zeta in Hres. rewrite Hres in Hrej. cbn [allowed] in Hrej.
  rewrite Hrej, Hm in Hres.
  apply bool_decide_eq_false in Hrej.
  subst response. unfold middleware, checkRateLimit. rewrite Hpath, Hout.
  destruct (RateLimiter.checkRateLimit t1 t2 (getClientIP request) rl) as [r rl'].
  cbn [fst] in *. subst r. cbn [allowed negb fst resetTime] in *.
  split; [done|]. split; [done|]. split.
  - cbn. by rewrite Z.max_l by lia.
  - eexists. split; [done|].
    set (x := oldestRequest _ _ + windowMs rl - t2) in *.
    pose proof (ceil_div_spec x 1000). lia.
Qed.

(** ** The price calculator, continued *)

Lemma calculatePrice_Return_inv (request : CalculatePriceRequest)
    (response : CalculatePriceResponse) :
  calculatePrice request = Return response →
  ∃ pickup destination rate,
    getStationById (pickupStationId request) = Some pickup ∧
    getStationById (destinationStationId request) = Some destination ∧
    routeRate (pickupStationId request) (destinationStationId request) = Some rate ∧
    pickupStation response = name pickup ∧
    destinationStation response = name destination ∧
    basePrice response = (rate * volume request)%float ∧
    collateralFee response
      = (collateral request * collateralPercentage stationsConfig)%float ∧
    totalPrice response = (basePrice response + collateralFee response)%float ∧
    response_volume response = volume request ∧
    response_collateral response = collateral request ∧
    (volume request <=? 0)%float = false ∧
    (maxVolume stationsConfig <? volume request)%float = false ∧
    (collateral request <? 0)%float = false ∧
    (maxCollateral stationsConfig <? collateral request)%float = false.
Proof.
  unfold calculatePrice, validateCalculationRequest.
  destruct (negb _ || negb _); [done|].
  destruct (volume request <=? 0)%float eqn:Hv1; [done|].
  destruct (maxVolume stationsConfig <? volume request)%float eqn:Hv2; [done|].
  destruct (collateral request <? 0)%float eqn:Hc1; [done|].
  destruct (maxCollateral stationsConfig <? collateral request)%float eqn:Hc2; [done|].
  cbn [orb].
  destruct (getStationById (pickupStationId request)) as [p|]; [|done].
  destruct (getStationById (destinationStationId request)) as [d|]; [|done].
  destruct (routeRate _ _) as [rate|]; [|done].
  cbn [bind]. intros [= <-]. exists p, d, rate. by repeat split.
Qed.

(** Every result [calculatePrice] returns comes from a listed pair of
    stations with a route rate, echoes the volume and collateral of the
    request, and has [totalPrice = basePrice + collateralFee]; the request
    passed every check of the validation. *)
Theorem calculatePrice_result_sound (request : CalculatePriceRequest)
    (response : CalculatePriceResponse) :
  calculatePrice request = Return response →
  ∃ pickup destination rate,
    getStationById (pickupStationId request) = Some pickup ∧
    getStationById (destinationStationId request) = Some destination ∧
    routeRate (pickupStationId request) (destinationStationId request) = Some rate ∧
    pickupStation response = name pickup ∧
    destinationStation response = name destination ∧
    basePrice response = (rate * volume request)%float ∧
    collateralFee response
      = (collateral request * collateralPercentage stationsConfig)%float ∧
    totalPrice response = (basePrice response + collateralFee response)%float ∧
    response_volume response = volume request ∧
    response_collateral response = collateral request ∧
    (volume request <=? 0)%float = false ∧
    (maxVolume stationsConfig <? volume request)%float = false ∧
    (collateral request <? 0)%float = false ∧
    (maxCollateral stationsConfig <? collateral request)%float = false.
Proof. apply calculatePrice_Return_inv. Qed.

(** A volume or a collateral outside its bounds never yields a result,
    whatever the stations: the call throws. *)
Theorem out_of_range_no_result (request : CalculatePriceRequest) :
  (volume request <=? 0)%float = true ∨
  (maxVolume stationsConfig <? volume request)%float = true ∨
  (collateral request <? 0)%float = true ∨
  (maxCollateral stationsConfig <? collateral request)%float = true →
  ∃ e, calculatePrice request = Throw e ∧
       (e = StationsRequired ∨ e = VolumeOutOfRange ∨ e = CollateralOutOfRange).
Proof.
  intros Hout. unfold calculatePrice, validateCalculationRequest.
  destruct (negb _ || negb _); [by eexists; eauto|].
  destruct (volume request <=? 0)%float; [by eexists; eauto|].
  destruct (maxVolume stationsConfig <? volume request)%float; [by eexists; eauto|].
  cbn [orb].
  destruct (collateral request <? 0)%float; [by eexists; eauto|].
  destruct (maxCollateral stationsConfig <? collateral request)%float;
    [by eexists; eauto|].
  destruct Hout as [?|[?|[?|?]]]; discriminate.
Qed.

Lemma calculatePrice_Return (request : CalculatePriceRequest)
    (pickup destination : Station) (rate : float) :
  getStationById (pickupStationId request) = Some pickup →
  getStationById (destinationStationId request) = Some destination →
  routeRate (pickupStationId request) (destinationStationId request) = Some rate →
  in_bounds request →
  ∃ response, calculatePrice request = Return response.
Proof.
  intros Hp Hd Hroute Hb.
  destruct (in_bounds_checks request Hb) as [Hv Hc].
  unfold calculatePrice, validateCalculationRequest.
  rewrite (listed_station_truthy (pickupStationId request)) by by eexists.
  rewrite (listed_station_truthy (destinationStationId request)) by by eexists.
  rewrite Hv, Hc, Hp, Hd, Hroute. by eexists.
Qed.

Lemma listed_station_ids (stationId : string) :
  is_Some (getStationById stationId) ↔
  stationId ∈ ["jita-iv-moon-4"; "saminer"; "t-nnjz"; "z-xmuc"; "o-fthe"; "y-4u62";
               "37s-ko-vi-moon-14"].
Proof.
  split.
  - intros [s Hs]. apply getStationById_Some in Hs as [<- Hin].
    change (id s ∈ id <$> stations stationsConfig). by apply list_elem_of_fmap_2.
  - intros Hin. repeat (apply elem_of_cons in Hin as [->|Hin]; [by eexists|]).
    by apply elem_of_nil in Hin.
Qed.

(** The routes that can be quoted.  For a volume and a collateral within
    bounds, [calculatePrice] returns a result exactly for the pairs of
    listed stations that do not involve ['37s-ko-vi-moon-14']; a station may
    be paired with itself. *)
Theorem quotable_routes (request : CalculatePriceRequest) :
  in_bounds request →
  (∃ response, calculatePrice request = Return response) ↔
  is_Some (getStationById (pickupStationId request)) ∧
  is_Some (getStationById (destinationStationId request)) ∧
  pickupStationId request ≠ "37s-ko-vi-moon-14" ∧
  destinationStationId request ≠ "37s-ko-vi-moon-14".
Proof.
  intros Hb. split.
  - intros [response Hret].
    destruct (calculatePrice_Return_inv request response Hret)
      as (p & d & rate & Hp & Hd & Hroute & _).
    split_and!; try by eexists.
    + intros Heq. by rewrite Heq, no_route_from_37s in Hroute.
    + intros Heq. by rewrite Heq, no_route_to_37s in Hroute.
  - intros ([p Hp] & [d Hd] & Hnp & Hnd).
    assert (Hroute : is_Some (routeRate (pickupStationId request)
                                        (destinationStationId request))).
    { assert (Hpl : is_Some (getStationById (pickupStationId request))) by by eexists.
      assert (Hdl : is_Some (getStationById (destinationStationId request))) by by eexists.
      apply listed_station_ids in Hpl, Hdl.
      revert Hnp Hnd Hpl Hdl.
      generalize (pickupStationId request), (destinationStationId request).
      intros a b Hna Hnb Ha Hb'.
      repeat (apply elem_of_cons in Ha as [->|Ha]);
        try (by apply elem_of_nil in Ha); try done;
        repeat (apply elem_of_cons in Hb' as [->|Hb']);
        try (by apply elem_of_nil in Hb'); try done;
        by (eexists; vm_compute; reflexivity). }
    destruct Hroute as [rate Hroute].
    by apply (calculatePrice_Return request p d rate).
Qed.

(** ** Resolving systems to stations *)

Lemma filter_unique {A} (f : A → Z) (n : Z) (l : list A) :
  NoDup (f <$> l) → (length (List.filter (λ x, Z.eqb (f x) n) l) ≤ 1)%nat.
Proof.
  induction l as [|x l IH]; [simpl; lia|].
  rewrite fmap_cons, NoDup_cons. intros [Hx Hnd]. simpl.
  destruct (Z.eqb_spec (f x) n) as [Heq|Hne]; [|auto].
  assert (Hnone : List.filter (λ x, Z.eqb (f x) n) l = []).
  { destruct (List.filter _ l) as [|y l'] eqn:Hl; [done|]. exfalso. apply Hx.
    assert (Hy : In y (List.filter (λ x, Z.eqb (f x) n) l)) by (rewrite Hl; by left).
    apply filter_In in Hy as [Hy Hfy]. apply Z.eqb_eq in Hfy.
    rewrite Heq, <- Hfy. apply list_elem_of_fmap_2. by apply list_elem_of_In. }
  rewrite Hnone. simpl. lia.
Qed.

Lemma systemIds_unique : NoDup (systemId <$> stations stationsConfig).
Proof. apply (bool_decide_unpack _). by vm_compute. Qed.

Lemma station_found_by_id (s : Station) :
  s ∈ stations stationsConfig → getStationById (id s) = Some s.
Proof.
  intros Hin. repeat (apply elem_of_cons in Hin as [->|Hin]; [reflexivity|]).
  by apply elem_of_nil in Hin.
Qed.

(** [resolveStationFromSystemId] either returns the identifier of the one
    listed station of the system, or reports that the system has no station;
    with the configured stations it never reports several. *)
Theorem resolveStationFromSystemId_sound (n : Z) :
  match resolveStationFromSystemId n with
  | inr stationId =>
      ∃ s, getStationById stationId = Some s ∧ systemId s = n
  | inl e =>
      e = NoStationsInSystem n ∧
      ∀ s, s ∈ stations stationsConfig → systemId s ≠ n
  end.
Proof.
  unfold resolveStationFromSystemId.
  pose proof (filter_unique systemId n _ systemIds_unique) as Hlen.
  destruct (List.filter _ _) as [|s [|s' l]] eqn:Hl.
  - split; [done|]. intros s Hin Heq.
    assert (Hs : In s (List.filter (λ s, Z.eqb (systemId s) n) (stations stationsConfig))).
    { apply filter_In. split; [by apply list_elem_of_In|by apply Z.eqb_eq]. }
    by rewrite Hl in Hs.
  - assert (Hs : In s (List.filter (λ s, Z.eqb (systemId s) n) (stations stationsConfig)))
      by (rewrite Hl; by left).
    apply filter_In in Hs as [Hin Heq]. exists s. split.
    + by apply station_found_by_id, list_elem_of_In.
    + by apply Z.eqb_eq.
  - simpl in Hlen. lia.
Qed.

Lemma resolve_listed_station (s : Station) :
  s ∈ stations stationsConfig →
  systemId s ≠ 0 ∧ resolveStationFromSystemId (systemId s) = inr (id s).
Proof.
  intros Hin. repeat (apply elem_of_cons in Hin as [->|Hin]; [by split|]).
  by apply elem_of_nil in Hin.
Qed.

(** Round trip between stations and systems: the system of every listed
    station resolves to that station, so a public request that names two
    listed stations by their systems is answered like the request that
    names them by their identifiers. *)
Theorem public_request_by_system (toLocaleString : float → string)
    (pickup destination : Station) (v c : float) :
  pickup ∈ stations stationsConfig →
  destination ∈ stations stationsConfig →
  resolveStationFromSystemId (systemId pickup) = inr (id pickup) ∧
  public_calculate_POST toLocaleString
      (Some (by_system (systemId pickup) (systemId destination) v c)) =
    respond toLocaleString corsHeaders
      (calculatePrice (mkCalculatePriceRequest (id pickup) (id destination) v c)).
Proof.
  intros Hp Hd.
  destruct (resolve_listed_station pickup Hp) as [Hp0 Hpr].
  destruct (resolve_listed_station destination Hd) as [Hd0 Hdr].
  split; [done|].
  unfold public_calculate_POST, resolvePublicCalculateRequest, resolveSide, by_system.
  cbn [Public.pickupStationId Public.pickupSystemId Public.destinationStationId
       Public.destinationSystemId Public.volume Public.collateral present].
  apply Z.eqb_neq in Hp0, Hd0. by rewrite Hp0, Hd0, Hpr, Hdr.
Qed.

(** ** The route handlers *)

(** [POST /api/calculate-price] answers a parsed body with 200 and the
    result of [calculatePrice], or with 400 and the message of the error
    thrown; it never answers such a body with 500. *)
Theorem calculate_price_POST_answers (toLocaleString : float → string)
    (request : CalculatePriceRequest) :
  match calculate_price_POST toLocaleString (Some request) with
  | RouteResult result status hs =>
      status = 200 ∧ hs = [] ∧ calculatePrice request = Return result
  | RouteError payload status hs =>
      status = 400 ∧ hs = [] ∧
      ∃ e, calculatePrice request = Throw e ∧
           payload = mkApiError "Validation Error" (error_message toLocaleString e) 400
  end.
Proof.
  unfold calculate_price_POST, respond.
  pose proof (calculatePrice_no_TypeError request) as Hno.
  destruct (calculatePrice request) as [result|e|]; [done| |done].
  unfold validationError. split_and!; try done. by exists e.
Qed.

(** [POST /api/public/calculate] puts the CORS headers on every response
    and answers 200, 400 or 500.  It answers 500 when the body is not JSON
    and when it is [null], and never when the body parses to a request.  A
    request whose stations cannot be resolved is answered with 400 and the
    error [Validation Error]; the message is the fixed text of the error
    when a side is named by neither identifier. *)
Theorem public_calculate_POST_answers (toLocaleString : float → string)
    (posted : Posted Public.PublicCalculatePriceRequest) :
  let response := public_calculate_POST toLocaleString (posted_body posted) in
  route_headers response = corsHeaders ∧
  (route_status response = 200 ∨ route_status response = 400 ∨
   route_status response = 500) ∧
  (route_status response = 500 ↔ posted = NotJSON ∨ posted = JSONNull) ∧
  (∀ request e, posted = JSONValue request →
     resolvePublicCalculateRequest request = inl e →
     ∃ text,
       response = RouteError (mkApiError "Validation Error" text 400) 400 corsHeaders ∧
       (e = PickupRequired →
        text = "Either pickupStationId or pickupSystemId is required") ∧
       (e = DestinationRequired →
        text = "Either destinationStationId or destinationSystemId is required")).
Proof.
  unfold public_calculate_POST. destruct posted as [| |request]; cbn [posted_body]; cbn zeta.
  - simpl. split; [done|]. split; [auto|]. split; [split; auto|]. by intros ? ? [=].
  - simpl. split; [done|]. split; [auto|]. split; [split; auto|]. by intros ? ? [=].
  - assert (Hsome : ¬ (JSONValue request = NotJSON ∨ JSONValue request = JSONNull))
      by (by intros [|]).
    destruct (resolvePublicCalculateRequest request) as [e|resolved] eqn:Hres.
    + simpl. split; [done|]. split; [by right; left|]. split; [by split|].
      intros ? ? [= <-] Hr. rewrite Hres in Hr. injection Hr as <-.
      eexists. split; [done|]. by split; intros ->.
    + pose proof (calculatePrice_no_TypeError resolved) as Hno.
      assert (Hnot : ∀ (request0 : Public.PublicCalculatePriceRequest) e0 (Q : Prop),
                JSONValue request = JSONValue request0 →
                resolvePublicCalculateRequest request0 = inl e0 → Q).
      { intros ? ? ? [= <-] Hr. by rewrite Hres in Hr. }
      unfold respond. destruct (calculatePrice resolved) as [result|e|]; [| |done];
        simpl; (split; [done|]); (split; [auto|]); (split; [by split|]);
        intros ? ?; apply Hnot.
Qed.

(** ** The number inputs of the form *)

Lemma all_digits_spec (s : string) : all_digits s = truthy s && only_digits s.
Proof.
  induction s as [|c s IH]; [done|]. destruct s as [|c' s]; simpl in *.
  - by rewrite andb_true_r.
  - by rewrite IH.
Qed.

Lemma digit_not_white_space (c : Ascii.ascii) :
  is_digit c = true → is_white_space c = false ∧ is_word c = true.
Proof. by destruct c as [[] [] [] [] [] [] [] []]. Qed.

Lemma removeWhiteSpace_digits (s : string) :
  only_digits s = true → removeWhiteSpace s = s.
Proof.
  induction s as [|c s IH]; [done|]. simpl. intros [Hc Hs]%andb_true_iff.
  destruct (digit_not_white_space c Hc) as [-> _]. by rewrite IH.
Qed.

Lemma removeWhiteSpace_group_after (s : string) :
  ∀ prev, removeWhiteSpace (group_after prev s) = removeWhiteSpace s.
Proof.
  induction s as [|c s IH]; intros prev; simpl.
  - by destruct (_ && _).
  - destruct (_ && _); simpl; by rewrite IH.
Qed.

(** The change handlers keep the state a string of digits (or empty): what
    they store never holds anything but digits, whatever is typed. *)
Theorem handleVolumeChange_keeps_digits (value volume : string) :
  only_digits volume = true →
  only_digits (handleVolumeChange value volume) = true ∧
  only_digits (handleCollateralChange value volume) = true.
Proof.
  intros Hstate. unfold handleVolumeChange, handleCollateralChange.
  destruct (String.eqb_spec (removeWhiteSpace value) EmptyString) as [->|_]; [done|].
  cbn [orb]. destruct (all_digits _) eqn:Hd; [|done].
  rewrite all_digits_spec in Hd. by apply andb_true_iff in Hd as [_ ->].
Qed.

(** Display and input agree: the field shows [formatInputNumber volume], and
    a change event carrying that very text stores [volume] again, for every
    state of digits and whatever the host accepts as a number. *)
Theorem display_round_trip (numeric : string → bool) (volume previous : string) :
  only_digits volume = true →
  handleVolumeChange (formatInputNumber numeric volume) previous = volume.
Proof.
  intros Hd.
  assert (Hraw : removeWhiteSpace (formatInputNumber numeric volume) = volume).
  { unfold formatInputNumber. rewrite (removeWhiteSpace_digits volume Hd).
    destruct (negb _ || negb _).
    - by apply removeWhiteSpace_digits.
    - unfold groupThousands.
      by rewrite removeWhiteSpace_group_after, removeWhiteSpace_digits. }
  unfold handleVolumeChange. rewrite Hraw, all_digits_spec, Hd.
  by destruct volume.
Qed.

Lemma groups_of_three_digits (n : nat) :
  ∀ s, (String.length s ≤ n)%nat → only_digits s = true →
       groups_of_three s = bool_decide (String.length s ≠ 0%nat ∧
                                        (String.length s mod 3 = 0)%nat).
Proof.
  induction n as [n IH] using lt_wf_ind. intros s Hlen Hd.
  destruct s as [|a [|b [|c rest]]]; try done.
  cbn [only_digits] in Hd. apply andb_true_iff in Hd as [Ha Hd].
  apply andb_true_iff in Hd as [Hb Hd]. apply andb_true_iff in Hd as [Hc Hd].
  cbn [groups_of_three]. rewrite Ha, Hb, Hc. cbn [andb].
  change (String.length (String a (String b (String c rest))))
    with (3 + String.length rest)%nat.
  rewrite (Nat.Div0.add_mod 3), Nat.Div0.mod_same, Nat.add_0_l, Nat.Div0.mod_mod.
  destruct rest as [|d rest]; [done|].
  cbn [only_digits] in Hd. pose proof Hd as Hd'. apply andb_true_iff in Hd' as [Hdd _].
  cbn [starts_with_digit]. rewrite Hdd. cbn [negb orb].
  rewrite (IH (String.length (String d rest))); [|simpl in *; lia|done|done].
  apply bool_decide_ext. simpl. lia.
Qed.

Lemma groups_of_three_append (x b : string) :
  only_digits x = true → only_digits b = true → String.length b = 3%nat →
  x ≠ EmptyString →
  groups_of_three (x +:+ b) = groups_of_three x.
Proof.
  intros Hx Hb Hlen Hne.
  assert (Hxb : only_digits (x +:+ b) = true).
  { clear Hne. induction x as [|c x IH]; [done|]. simpl in *.
    apply andb_true_iff in Hx as [-> Hx]. by apply IH. }
  rewrite (groups_of_three_digits _ _ (Nat.le_refl _) Hxb).
  rewrite (groups_of_three_digits _ _ (Nat.le_refl _) Hx).
  assert (Happ : String.length (x +:+ b) = (String.length x + 3)%nat).
  { rewrite <- Hlen. clear. induction x; simpl; [done|]. by rewrite IHx. }
  rewrite Happ. apply bool_decide_ext.
  rewrite (Nat.Div0.add_mod _ 3), Nat.Div0.mod_same, Nat.add_0_r, Nat.Div0.mod_mod.
  destruct x; [done|]. simpl. lia.
Qed.

Lemma group_after_block (c : Ascii.ascii) (b : string) :
  is_digit c = true → only_digits b = true → String.length b = 3%nat →
  group_after (Some c) b = " " +:+ b.
Proof.
  intros Hc Hb Hlen. destruct b as [|b0 [|b1 [|b2 [|? ?]]]]; try done.
  cbn [only_digits] in Hb. apply andb_true_iff in Hb as [H0 Hb].
  apply andb_true_iff in Hb as [H1 Hb]. apply andb_true_iff in Hb as [H2 _].
  destruct (digit_not_white_space c Hc) as [_ Hwc].
  destruct (digit_not_white_space b0 H0) as [_ Hw0].
  cbn [group_after groups_of_three starts_with_digit].
  rewrite !andb_false_r. unfold not_word_boundary at 1. cbn [from_option].
  rewrite Hwc, Hw0, H0, H1, H2. by rewrite bool_decide_eq_true_2.
Qed.

Lemma group_after_append (a b : string) :
  only_digits a = true → only_digits b = true → String.length b = 3%nat →
  a ≠ EmptyString →
  ∀ prev, group_after prev (a +:+ b) = group_after prev a +:+ " " +:+ b.
Proof.
  intros Ha Hb Hlen. induction a as [|c a IH]; [done|]. intros _ prev.
  cbn [only_digits] in Ha. apply andb_true_iff in Ha as [Hc Ha].
  change (String c a +:+ b) with (String c (a +:+ b)).
  cbn [group_after].
  assert (Hnwb : not_word_boundary prev (String c (a +:+ b))
                 = not_word_boundary prev (String c a)) by done.
  assert (Hg : groups_of_three (String c (a +:+ b)) = groups_of_three (String c a)).
  { apply (groups_of_three_append (String c a) b); try done.
    simpl. by rewrite Hc, Ha. }
  rewrite Hnwb, Hg.
  assert (Htail : group_after (Some c) (a +:+ b) = group_after (Some c) a +:+ " " +:+ b).
  { destruct a as [|c' a'].
    - simpl (EmptyString +:+ b). rewrite group_after_block by done.
      cbn. by rewrite andb_false_r.
    - by apply IH. }
  rewrite Htail. by destruct (_ && _).
Qed.

(** The grouping the regular expression performs on a string of digits.
    Up to three digits are left as they are, and each further block of
    three digits is set off by one space, counted from the right. *)
Theorem groupThousands_blocks (a b : string) :
  only_digits a = true → a ≠ EmptyString →
  only_digits b = true → String.length b = 3%nat →
  groupThousands (a +:+ b) = groupThousands a +:+ " " +:+ b ∧
  ((String.length a ≤ 3)%nat → groupThousands a = a).
Proof.
  intros Ha Hne Hb Hlen. split; [by apply group_after_append|].
  intros Hshort. unfold groupThousands.
  destruct a as [|c0 [|c1 [|c2 [|? ?]]]]; try done; [| | |simpl in Hshort; lia];
    cbn [only_digits] in Ha;
    repeat (apply andb_true_iff in Ha as [? Ha]);
    cbn [group_after groups_of_three]; rewrite ?andb_false_r;
    unfold not_word_boundary; cbn [from_option];
    repeat match goal with
           | H : is_digit ?c = true |- _ =>
               destruct (digit_not_white_space c H) as [_ ->]; clear H
           end;
    by rewrite ?bool_decide_eq_false_2.
Qed.

(** * Further instances *)

Lemma exhausted_chronological : chronological 9001 exhausted.
Proof.
  apply (run_chronological example_ip ten_calls (rateLimiter 0) 0).
  - apply new_chronological.
  - apply (bool_decide_unpack _). by vm_compute.
  - apply (bool_decide_unpack _). by vm_compute.
Qed.

Example busy_trace_admitted :
  admitted example_ip (serve busy_trace (rateLimiter 0)).1
    = [1; 1001; 2001; 3001; 4001; 5001; 6001; 7001; 8001; 9001].
Proof. by vm_compute. Qed.

Lemma sliding_window_guarantee_witness :
  StronglySorted Z.le (clock busy_trace) ∧
  Z.of_nat (length (filter (λ a, 11001 - 60000 < a ≤ 11001)
                      (admitted example_ip
                         (serve busy_trace (RateLimiter.new 60000 10 0)).1)))
    ≤ Z.max 0 10.
Proof.
  assert (H : StronglySorted Z.le (clock busy_trace)).
  { apply (bool_decide_unpack _). vm_compute. exact I. }
  split; [exact H|].
  exact (sliding_window_guarantee 60000 10 0 busy_trace example_ip 11001 H).
Defined.

Lemma cleanup_keeps_live_entries_witness :
  cleanupInterval exhausted ≤ 65000 - lastGlobalCleanup exhausted ∧
  (size (store (RateLimiter.cleanup 65000 exhausted)) ≤ size (store exhausted))%nat.
Proof.
  assert (H : cleanupInterval exhausted ≤ 65000 - lastGlobalCleanup exhausted).
  { vm_compute. discriminate. }
  split; [exact H|].
  exact (proj1 (proj2 (cleanup_keeps_live_entries 65000 exhausted H))).
Defined.

Lemma expired_identifiers_dropped_witness :
  cleanupInterval exhausted ≤ 200000 - lastGlobalCleanup exhausted ∧
  0 < maxRequests exhausted ∧
  RateLimiter.getStats exhausted = RateLimiter.mkStats 1 10 ∧
  RateLimiter.getStats (RateLimiter.checkRateLimit 200000 200001 "198.51.100.2" exhausted).2
    = RateLimiter.mkStats 1 1.
Proof.
  assert (H1 : cleanupInterval exhausted ≤ 200000 - lastGlobalCleanup exhausted).
  { vm_compute. discriminate. }
  assert (H2 : ∀ other t, t ∈ requests_of other exhausted →
                          windowMs exhausted ≤ 200000 - t).
  { intros other t Ht. destruct (exhausted_chronological other) as [_ Hb].
    rewrite Forall_forall in Hb. specialize (Hb t Ht).
    change (windowMs exhausted) with 60000. lia. }
  assert (H3 : 0 < maxRequests exhausted) by (vm_compute; reflexivity).
  split; [exact H1|]. split; [exact H3|]. split; [vm_compute; reflexivity|].
  exact (expired_identifiers_dropped 200000 200001 "198.51.100.2" exhausted H1 H2 H3).
Defined.

Lemma other_identifiers_isolated_witness :
  "198.51.100.2" ≠ example_ip ∧
  12000 - lastGlobalCleanup two_clients < cleanupInterval two_clients ∧
  store two_clients !! "198.51.100.2"
    = Some (mkEntry [3; 1003; 2003; 3003; 4003; 5003; 6003; 7003; 8003; 9003] 3) ∧
  store (RateLimiter.checkRateLimit 12000 12001 example_ip two_clients).2 !! "198.51.100.2"
    = store two_clients !! "198.51.100.2" ∧
  requests_of "198.51.100.2"
      (RateLimiter.checkRateLimit 65000 65001 example_ip two_clients).2
    = [5003; 6003; 7003; 8003; 9003] ∧
  requests_of "198.51.100.2"
      (RateLimiter.checkRateLimit 65000 65001 example_ip two_clients).2
    `sublist_of` requests_of "198.51.100.2" two_clients.
Proof.
  assert (H1 : "198.51.100.2" ≠ example_ip) by discriminate.
  assert (H2 : 12000 - lastGlobalCleanup two_clients < cleanupInterval two_clients)
    by (vm_compute; reflexivity).
  split; [exact H1|]. split; [exact H2|]. split; [by vm_compute|]. split.
  - exact (proj2 (other_identifiers_isolated 12000 12001 example_ip "198.51.100.2"
                    two_clients H1) H2).
  - split; [by vm_compute|].
    exact (proj1 (other_identifiers_isolated 65000 65001 example_ip "198.51.100.2"
                    two_clients H1)).
Defined.

Lemma reset_restores_quota_witness :
  0 < maxRequests exhausted ∧
  allowed (RateLimiter.checkRateLimit 9500 9501 example_ip exhausted).1 = false ∧
  (RateLimiter.checkRateLimit 9500 9501 example_ip
     (RateLimiter.reset example_ip exhausted)).1
    = mkResult true (maxRequests exhausted) (maxRequests exhausted - 1)
               (9501 + windowMs exhausted).
Proof.
  assert (H : 0 < maxRequests exhausted) by (vm_compute; reflexivity).
  split; [exact H|]. split; [vm_compute; reflexivity|].
  exact (proj1 (reset_restores_quota 9500 9501 example_ip exhausted H)).
Defined.

Lemma stats_within_quota_witness :
  0 ≤ 10 ∧ reachable 60000 10 exhausted ∧
  0 ≤ RateLimiter.totalRequests (RateLimiter.getStats exhausted) ≤
    10 * RateLimiter.totalKeys (RateLimiter.getStats exhausted).
Proof.
  assert (H : 0 ≤ 10) by lia.
  split; [exact H|]. split; [exact exhausted_reachable|].
  exact (stats_within_quota 60000 10 exhausted H exhausted_reachable).
Defined.

Lemma resetTime_within_window_witness :
  0 < windowMs exhausted ∧ chronological 9001 exhausted ∧ 9001 ≤ 9501 ∧
  9501 < resetTime (RateLimiter.checkRateLimit 9500 9501 example_ip exhausted).1
    ≤ 9501 + windowMs exhausted.
Proof.
  assert (H1 : 0 < windowMs exhausted) by (vm_compute; reflexivity).
  assert (H2 : 9001 ≤ 9501) by lia.
  split; [exact H1|]. split; [exact exhausted_chronological|]. split; [exact H2|].
  exact (proj1 (resetTime_within_window 9001 9500 9501 example_ip exhausted
                  H1 exhausted_chronological H2)).
Defined.

Lemma bypassed_client_passes_witness :
  String.prefix "/api/public" (pathname public_request) = true ∧
  getClientIP public_request ∈ noRateLimitIps bypass_env ∧
  allowed (checkRateLimit no_env 9500 9501 (getClientIP public_request) exhausted).1
    = false ∧
  (middleware bypass_env 9500 9501 9502 public_request exhausted).2 = exhausted.
Proof.
  assert (H1 : String.prefix "/api/public" (pathname public_request) = true)
    by reflexivity.
  assert (H2 : getClientIP public_request ∈ noRateLimitIps bypass_env).
  { apply (bool_decide_unpack _). vm_compute. exact I. }
  split; [exact H1|]. split; [exact H2|]. split; [vm_compute; reflexivity|].
  by rewrite (bypassed_client_passes bypass_env 9500 9501 9502 public_request
                exhausted H1 H2).
Defined.

Lemma too_many_requests_headers_witness :
  reachable 60000 10 exhausted ∧ chronological 9001 exhausted ∧ 9001 ≤ 9501 ∧
  String.prefix "/api/public" (pathname public_request) = true ∧
  allowed (checkRateLimit no_env 9500 9501 (getClientIP public_request) exhausted).1
    = false ∧
  ∃ seconds,
    response_header "Retry-After"
      (middleware no_env 9500 9501 9501 public_request exhausted).1
      = Some (pretty seconds) ∧
    1 ≤ seconds ≤ 60.
Proof.
  assert (H1 : 9001 ≤ 9501) by lia.
  assert (H2 : String.prefix "/api/public" (pathname public_request) = true)
    by reflexivity.
  assert (H3 : allowed (checkRateLimit no_env 9500 9501
                          (getClientIP public_request) exhausted).1 = false)
    by (vm_compute; reflexivity).
  split; [exact exhausted_reachable|]. split; [exact exhausted_chronological|].
  split; [exact H1|]. split; [exact H2|]. split; [exact H3|].
  exact (proj2 (proj2 (proj2
    (too_many_requests_headers no_env 9001 9500 9501 public_request exhausted
       exhausted_reachable exhausted_chronological H1 H2 H3)))).
Defined.

Lemma calculatePrice_result_sound_witness :
  calculatePrice jita_to_saminer =
    Return (mkCalculatePriceResponse 300000 10000 310000 (name jita) (name saminer)
              1000 1000000) ∧
  ∃ pickup destination rate,
    getStationById (pickupStationId jita_to_saminer) = Some pickup ∧
    getStationById (destinationStationId jita_to_saminer) = Some destination ∧
    routeRate (pickupStationId jita_to_saminer) (destinationStationId jita_to_saminer)
      = Some rate.
Proof.
  assert (H : calculatePrice jita_to_saminer =
              Return (mkCalculatePriceResponse 300000 10000 310000 (name jita)
                        (name saminer) 1000 1000000))
    by (vm_compute; reflexivity).
  split; [exact H|].
  destruct (calculatePrice_result_sound jita_to_saminer _ H)
    as (p & d & rate & Hp & Hd & Hr & _).
  exists p, d, rate. by split_and!.
Defined.

Lemma out_of_range_no_result_witness :
  (volume (mkCalculatePriceRequest "jita-iv-moon-4" "saminer" 0 1000000) <=? 0)%float
    = true ∧
  ∃ e, calculatePrice (mkCalculatePriceRequest "jita-iv-moon-4" "saminer" 0 1000000)
       = Throw e ∧
       (e = StationsRequired ∨ e = VolumeOutOfRange ∨ e = CollateralOutOfRange).
Proof.
  assert (H : (volume (mkCalculatePriceRequest "jita-iv-moon-4" "saminer" 0 1000000)
               <=? 0)%float = true) by reflexivity.
  split; [exact H|].
  exact (out_of_range_no_result
           (mkCalculatePriceRequest "jita-iv-moon-4" "saminer" 0 1000000)
           (or_introl H)).
Defined.

Lemma quotable_routes_witness :
  in_bounds jita_to_saminer ∧
  ∃ response, calculatePrice jita_to_saminer = Return response.
Proof.
  assert (H : in_bounds jita_to_saminer) by (repeat split; reflexivity).
  split; [exact H|].
  apply (proj2 (quotable_routes jita_to_saminer H)).
  split_and!; [by eexists|by eexists|discriminate|discriminate].
Defined.

Lemma public_request_by_system_witness :
  jita ∈ stations stationsConfig ∧ saminer ∈ stations stationsConfig ∧
  public_calculate_POST (λ _, EmptyString)
      (Some (by_system 30000142 30001721 1000 1000000)) =
    RouteResult (mkCalculatePriceResponse 300000 10000 310000 (name jita) (name saminer)
                   1000 1000000) 200 corsHeaders.
Proof.
  assert (H1 : jita ∈ stations stationsConfig) by (apply elem_of_cons; by left).
  assert (H2 : saminer ∈ stations stationsConfig).
  { apply elem_of_cons. right. apply elem_of_cons. by left. }
  split; [exact H1|]. split; [exact H2|].
  etrans; [exact (proj2 (public_request_by_system (λ _, EmptyString) jita saminer
                           1000 1000000 H1 H2))|].
  vm_compute. reflexivity.
Defined.

Lemma handleVolumeChange_keeps_digits_witness :
  only_digits "345000" = true ∧
  handleVolumeChange "12 a" "345000" = "345000" ∧
  handleVolumeChange " 1 234 " "345000" = "1234" ∧
  only_digits (handleVolumeChange "12 a" "345000") = true.
Proof.
  assert (H : only_digits "345000" = true) by reflexivity.
  split; [exact H|]. split; [reflexivity|]. split; [reflexivity|].
  exact (proj1 (handleVolumeChange_keeps_digits "12 a" "345000" H)).
Defined.

Lemma display_round_trip_witness :
  only_digits "3000000000" = true ∧
  formatInputNumber (λ _, true) "3000000000" = "3 000 000 000" ∧
  handleVolumeChange (formatInputNumber (λ _, true) "3000000000") "7" = "3000000000".
Proof.
  assert (H : only_digits "3000000000" = true) by reflexivity.
  split; [exact H|]. split; [reflexivity|].
  exact (display_round_trip (λ _, true) "3000000000" "7" H).
Defined.

Lemma groupThousands_blocks_witness :
  only_digits "1234" = true ∧ "1234" ≠ EmptyString ∧
  only_digits "567" = true ∧ String.length "567" = 3%nat ∧
  groupThousands ("1234" +:+ "567") = groupThousands "1234" +:+ " " +:+ "567" ∧
  groupThousands "1234567" = "1 234 567".
Proof.
  assert (H1 : only_digits "1234" = true) by reflexivity.
  assert (H2 : "1234" ≠ EmptyString) by discriminate.
  assert (H3 : only_digits "567" = true) by reflexivity.
  assert (H4 : String.length "567" = 3%nat) by reflexivity.
  split; [exact H1|]. split; [exact H2|]. split; [exact H3|]. split; [exact H4|].
  split; [|reflexivity].
  exact (proj1 (groupThousands_blocks "1234" "567" H1 H2 H3 H4)).
Defined.

(** The window invariant.  With a positive window and a clock that does
    not go back, the entry a call leaves for its identifier holds only
    timestamps of the window that ends at the call: later than
    [now - windowMs] and not later than [now]. *)
Theorem entry_within_window (bound t1 now : Z) (identifier : string) (rl : RateLimiter) :
  0 < windowMs rl →
  chronological bound rl → bound ≤ now →
  Forall (λ t, now - windowMs rl < t ≤ now)
         (requests_of identifier (RateLimiter.checkRateLimit t1 now identifier rl).2).
Proof.
  intros Hw Hchr Hle.
  destruct (checkRateLimit_chronological bound t1 now identifier rl Hchr Hle identifier)
    as [_ Hupper].
  rewrite Forall_forall in Hupper. apply Forall_forall. intros t Ht.
  split; [|by apply Hupper].
  rewrite checkRateLimit_requests_of in Ht.
  assert (Hs : t ∈ surviving t1 now identifier rl → now - windowMs rl < t).
  { unfold surviving. intros [? _]%list_elem_of_filter. lia. }
  case_bool_decide; [|by apply Hs].
  apply elem_of_app in Ht as [Ht|Ht]; [by apply Hs|].
  apply list_elem_of_singleton in Ht as ->. lia.
Qed.

Lemma entry_within_window_witness :
  0 < windowMs exhausted ∧ chronological 9001 exhausted ∧ 9001 ≤ 65000 ∧
  requests_of example_ip (RateLimiter.checkRateLimit 65000 65000 example_ip exhausted).2
    = [5001; 6001; 7001; 8001; 9001; 65000] ∧
  Forall (λ t, 65000 - windowMs exhausted < t ≤ 65000)
         (requests_of example_ip
            (RateLimiter.checkRateLimit 65000 65000 example_ip exhausted).2).
Proof.
  assert (H1 : 0 < windowMs exhausted) by (vm_compute; reflexivity).
  assert (H2 : 9001 ≤ 65000) by lia.
  split; [exact H1|]. split; [exact exhausted_chronological|]. split; [exact H2|].
  split; [vm_compute; reflexivity|].
  exact (entry_within_window 9001 65000 65000 example_ip exhausted
           H1 exhausted_chronological H2).
Defined.
